(** * Othello rules engine of [script.js]: embedding and verification

    The script keeps the game in two globals, [board] (an array of arrays of
    numbers) and [currentPlayer], and reports through the text of two DOM
    elements.  The functions of the script are embedded as computations in a
    state-and-exception monad over these globals: reading [board[r][c]] may
    raise a [TypeError] exactly where JavaScript does, and [setTimeout] queues
    its callback in the state.  The proofs then relate these computations to
    plain list functions over the board. *)

From stdpp Require Import base decidable option list list_numbers sorting.
From Stdlib Require Import ZArith Lia.

Local Open Scope Z_scope.

(** ** Data *)

(** The three cell values: [EMPTY = 0], [BLACK = 1], [WHITE = 2]. *)
Inductive Cell : Type := EMPTY | BLACK | WHITE.

#[global] Instance Cell_eq_dec : EqDecision Cell.
Proof. solve_decision. Defined.

Definition BOARD_SIZE : Z := 8.

(** Coordinate objects [{r, c}] and direction objects [{dr, dc}]. *)
Record Pos : Type := mkPos { pos_r : Z; pos_c : Z }.
Record Dir : Type := mkDir { dr : Z; dc : Z }.

#[global] Instance Pos_eq_dec : EqDecision Pos.
Proof. solve_decision. Defined.
#[global] Instance Dir_eq_dec : EqDecision Dir.
Proof. solve_decision. Defined.

Definition DIRECTIONS : list Dir :=
  [ mkDir (-1) 0; mkDir 1 0; mkDir 0 (-1); mkDir 0 1;
    mkDir (-1) (-1); mkDir (-1) 1; mkDir 1 (-1); mkDir 1 1 ].

(** The two colour words of the messages, [黒] and [白]. *)
Inductive ColorName : Type := Kuro | Shiro.

(** The texts written to [messageElement]: one constructor per template of the
    script, with the interpolated values in the order they are printed. *)
Inductive Message : Type :=
  | MsgBlank
  | MsgTurn (playerColor : ColorName)
  | MsgPass (playerColor nextColor : ColorName)
  | MsgBlackWins (blackCount whiteCount : nat)
  | MsgWhiteWins (whiteCount blackCount : nat)
  | MsgDraw (blackCount whiteCount : nat).

(** The globals of the script, the two text elements it writes, and the queue
    of callbacks registered by [setTimeout] and not yet run (each callback of
    the script is determined by the [nextPlayer] it captured). *)
Record State : Type := mkState {
  board : list (list Cell);
  currentPlayer : Cell;
  messageText : Message;
  scoreText : nat * nat;
  timers : list Cell
}.

(** ** The monad of the script *)

Inductive Outcome (A : Type) : Type :=
  | Ok (a : A)
  | TypeError
  | OutOfFuel.
Arguments Ok {A} a.
Arguments TypeError {A}.
Arguments OutOfFuel {A}.

Definition M (A : Type) : Type := State → Outcome A * State.

#[global] Instance M_ret : MRet M := λ A a s, (Ok a, s).
#[global] Instance M_bind : MBind M := λ A B f m s,
  match m s with
  | (Ok a, s') => f a s'
  | (TypeError, s') => (TypeError, s')
  | (OutOfFuel, s') => (OutOfFuel, s')
  end.

Definition throwTypeError {A} : M A := λ s, (TypeError, s).
Definition outOfFuel {A} : M A := λ s, (OutOfFuel, s).

Definition getBoard : M (list (list Cell)) := λ s, (Ok (board s), s).
Definition setBoard (b : list (list Cell)) : M unit := λ s,
  (Ok tt, mkState b (currentPlayer s) (messageText s) (scoreText s) (timers s)).
Definition getCurrentPlayer : M Cell := λ s, (Ok (currentPlayer s), s).
Definition setCurrentPlayer (p : Cell) : M unit := λ s,
  (Ok tt, mkState (board s) p (messageText s) (scoreText s) (timers s)).
Definition setMessage (m : Message) : M unit := λ s,
  (Ok tt, mkState (board s) (currentPlayer s) m (scoreText s) (timers s)).
Definition setScore (sc : nat * nat) : M unit := λ s,
  (Ok tt, mkState (board s) (currentPlayer s) (messageText s) sc (timers s)).
(** [setTimeout(() => { currentPlayer = nextPlayer; renderBoard(); }, 1000)] *)
Definition setTimeout (nextPlayer : Cell) : M unit := λ s,
  (Ok tt, mkState (board s) (currentPlayer s) (messageText s) (scoreText s)
                  (timers s ++ [nextPlayer])).

(** [a[i]] on an array: [undefined] ([None]) for an index that is negative or
    past the end. *)
Definition js_get {A} (a : list A) (i : Z) : option A :=
  if decide (0 ≤ i) then a !! Z.to_nat i else None.

(** [a[i] = x] on an array, for an index inside it.  Outside, JavaScript would
    grow the array or add a property; the script never stores there
    (lemma [handleMove_stores_in_bounds]) and the model leaves [a] as it is. *)
Definition js_set {A} (a : list A) (i : Z) (x : A) : list A :=
  if decide (0 ≤ i < Z.of_nat (length a)) then <[Z.to_nat i := x]> a else a.

(** [board[r][c]]: a [TypeError] when [board[r]] is [undefined]. *)
Definition readCell (r c : Z) : M (option Cell) :=
  b ← getBoard;
  match js_get b r with
  | None => throwTypeError
  | Some row => mret (js_get row c)
  end.

(** [board[r][c] = v] *)
Definition writeCell (r c : Z) (v : Cell) : M unit :=
  b ← getBoard;
  match js_get b r with
  | None => throwTypeError
  | Some row => setBoard (js_set b r (js_set row c v))
  end.

(** [l.forEach(x => body)] where the body updates a captured local [acc]. *)
Fixpoint forEach {A B} (l : list A) (body : A → B → M B) (acc : B) : M B :=
  match l with
  | [] => mret acc
  | x :: l' => acc' ← body x acc; forEach l' body acc'
  end.

(** [for (let i = 0; i < n; i++) body] *)
Definition forUpTo {B} (n : Z) (body : Z → B → M B) (acc : B) : M B :=
  forEach (seqZ 0 n) body acc.

(** ** The functions of the script *)

Definition opponentOf (player : Cell) : Cell :=
  if decide (player = BLACK) then WHITE else BLACK.

Definition colorName (player : Cell) : ColorName :=
  if decide (player = BLACK) then Kuro else Shiro.

Definition inRange (nr nc : Z) : bool :=
  (0 <=? nr) && (nr <? BOARD_SIZE) && (0 <=? nc) && (nc <? BOARD_SIZE).

(** The [while] loop of [getFlippablePieces] for one direction; its locals
    [line], [nr], [nc] and the captured [flippable] are passed explicitly.
    The result is the value of [flippable] when the loop is left. *)
Fixpoint walk (fuel : nat) (player opponent : Cell) (d : Dir)
    (line : list Pos) (nr nc : Z) (flippable : list Pos) : M (list Pos) :=
  if inRange nr nc then
    match fuel with
    | O => outOfFuel
    | S fuel' =>
        current ← readCell nr nc;
        if decide (current = Some EMPTY) then
          mret flippable
        else if decide (current = Some opponent) then
          walk fuel' player opponent d (line ++ [mkPos nr nc])
               (nr + dr d) (nc + dc d) flippable
        else if decide (current = Some player) then
          mret (flippable ++ line)
        else
          walk fuel' player opponent d line (nr + dr d) (nc + dc d) flippable
    end
  else mret flippable.

(** Iterations allowed to each [while] loop; the loop never needs more
    (lemmas [walk_fuel_enough] and [getFlippablePieces_terminates]). *)
Definition WALK_FUEL : nat := Z.to_nat BOARD_SIZE.

Definition getFlippablePieces (r c : Z) (player : Cell) : M (list Pos) :=
  cell ← readCell r c;
  if negb (bool_decide (cell = Some EMPTY))
     || (r <? 0) || (r >=? BOARD_SIZE) || (c <? 0) || (c >=? BOARD_SIZE)
  then mret []
  else
    let opponent := opponentOf player in
    forEach DIRECTIONS
      (λ d flippable,
         walk WALK_FUEL player opponent d [] (r + dr d) (c + dc d) flippable)
      [].

Definition getValidMoves (player : Cell) : M (list Pos) :=
  forUpTo BOARD_SIZE (λ r validMoves,
    forUpTo BOARD_SIZE (λ c validMoves,
      flippable ← getFlippablePieces r c player;
      if decide (0 < length flippable)%nat
      then mret (validMoves ++ [mkPos r c])
      else mret validMoves) validMoves) [].

(** The counting loop that [updateScore] and [endGame] both contain. *)
Definition countDiscs : M (nat * nat) :=
  forUpTo BOARD_SIZE (λ r counts,
    forUpTo BOARD_SIZE (λ c counts,
      cell ← readCell r c;
      if decide (cell = Some BLACK) then mret (S (fst counts), snd counts)
      else if decide (cell = Some WHITE) then mret (fst counts, S (snd counts))
      else mret counts) counts) (0%nat, 0%nat).

Definition updateScore : M unit :=
  counts ← countDiscs;
  setScore counts.

(** The value given to the local [resultMessage] of [endGame]. *)
Definition resultMessage (blackCount whiteCount : nat) : Message :=
  if decide (whiteCount < blackCount)%nat then
    MsgBlackWins blackCount whiteCount
  else if decide (blackCount < whiteCount)%nat then
    MsgWhiteWins whiteCount blackCount
  else
    MsgDraw blackCount whiteCount.

Definition endGame : M unit :=
  counts ← countDiscs;
  setMessage (resultMessage (fst counts) (snd counts)).

Definition checkGameStatus (currentValidMoves : list Pos) : M unit :=
  _ ← updateScore;
  if decide (length currentValidMoves = 0%nat) then
    player ← getCurrentPlayer;
    let nextPlayer := opponentOf player in
    nextValidMoves ← getValidMoves nextPlayer;
    if decide (length nextValidMoves = 0%nat) then
      endGame
    else
      _ ← setMessage (MsgPass (colorName player) (colorName nextPlayer));
      setTimeout nextPlayer
  else
    player ← getCurrentPlayer;
    setMessage (MsgTurn (colorName player)).

(** The loop of [renderBoard] over the 64 squares.  The elements it creates
    in the DOM are not part of the model; its reads of [board[r][c]] are. *)
Definition drawSquares : M unit :=
  forUpTo BOARD_SIZE (λ r _,
    forUpTo BOARD_SIZE (λ c _,
      _ ← readCell r c;
      mret tt) tt) tt.

Definition renderBoard : M unit :=
  player ← getCurrentPlayer;
  validMoves ← getValidMoves player;
  _ ← drawSquares;
  checkGameStatus validMoves.

Definition switchTurn : M unit :=
  player ← getCurrentPlayer;
  _ ← setCurrentPlayer (opponentOf player);
  renderBoard.

(** [currentPlayer] is read once: nothing assigns it before [switchTurn]. *)
Definition handleMove (r c : Z) : M unit :=
  player ← getCurrentPlayer;
  flippable ← getFlippablePieces r c player;
  if decide (0 < length flippable)%nat then
    _ ← writeCell r c player;
    _ ← forEach flippable (λ pos _, writeCell (pos_r pos) (pos_c pos) player) tt;
    switchTurn
  else mret tt.

(** [Array(BOARD_SIZE).fill(0).map(() => Array(BOARD_SIZE).fill(EMPTY))] makes
    eight distinct rows, so a store into one row leaves the others alone. *)
Definition initializeGame : M unit :=
  _ ← setBoard (replicate (Z.to_nat BOARD_SIZE)
                          (replicate (Z.to_nat BOARD_SIZE) EMPTY));
  _ ← writeCell 3 3 WHITE;
  _ ← writeCell 3 4 BLACK;
  _ ← writeCell 4 3 BLACK;
  _ ← writeCell 4 4 WHITE;
  _ ← setCurrentPlayer BLACK;
  _ ← renderBoard;
  updateScore.

(** The callback queued by [checkGameStatus], run when its timer expires. *)
Definition timerCallback (nextPlayer : Cell) : M unit :=
  _ ← setCurrentPlayer nextPlayer;
  renderBoard.

Definition popTimer : M (option Cell) := λ s,
  match timers s with
  | [] => (Ok None, s)
  | p :: rest =>
      (Ok (Some p),
       mkState (board s) (currentPlayer s) (messageText s) (scoreText s) rest)
  end.

Definition fireTimer : M unit :=
  t ← popTimer;
  match t with
  | None => mret tt
  | Some nextPlayer => timerCallback nextPlayer
  end.

(** The events of a game: a click that reaches [handleMove(r, c)] and the
    expiry of the oldest pending timer (the reset button starts another game
    with [initializeGame]).  An exception raised by a handler ends that
    handler only; the globals stay as the handler left them. *)
Inductive Event : Type := Click (r c : Z) | TimerExpired.

Definition handler (e : Event) : M unit :=
  match e with
  | Click r c => handleMove r c
  | TimerExpired => fireTimer
  end.

Definition dispatch (s : State) (e : Event) : State := snd (handler e s).

Definition run (s : State) (es : list Event) : State := foldl dispatch s es.

(** The state in which the script starts: nothing assigned yet (the empty
    list stands for the unassigned [board]). *)
Definition blankState : State := mkState [] EMPTY MsgBlank (0%nat, 0%nat) [].

Definition newGameState : State := snd (initializeGame blankState).

(** ** Board shape and the reading of cells *)

Definition wf_board (b : list (list Cell)) : Prop :=
  length b = Z.to_nat BOARD_SIZE ∧
  Forall (λ row, length row = Z.to_nat BOARD_SIZE) b.

Definition is_player (p : Cell) : Prop := p = BLACK ∨ p = WHITE.

(** The value of [board[r][c]] when the row exists. *)
Definition cellAt (b : list (list Cell)) (p : Pos) : option Cell :=
  row ← js_get b (pos_r p); js_get row (pos_c p).

Definition onBoard (p : Pos) : bool := inRange (pos_r p) (pos_c p).

(** A computation is read-only when it hands back the state it was given,
    whatever its outcome. *)
Definition ReadOnly {A} (m : M A) : Prop := ∀ s, snd (m s) = s.

(** ** The flip set in the words of the specification *)

Fixpoint takeWhile {A} (P : A → bool) (l : list A) : list A :=
  match l with
  | [] => []
  | x :: l' => if P x then x :: takeWhile P l' else []
  end.

Fixpoint dropWhile {A} (P : A → bool) (l : list A) : list A :=
  match l with
  | [] => []
  | x :: l' => if P x then dropWhile P l' else l
  end.

Definition opposite (player : Cell) : Cell :=
  match player with
  | BLACK => WHITE
  | WHITE => BLACK
  | EMPTY => EMPTY
  end.

Definition holds (b : list (list Cell)) (v : Cell) (p : Pos) : bool :=
  bool_decide (cellAt b p = Some v).

(** The cell [k] steps away from [(r, c)] in direction [d]. *)
Definition stepFrom (r c : Z) (d : Dir) (k : Z) : Pos :=
  mkPos (r + k * dr d) (c + k * dc d).

(** The cells met walking outward from [(r, c)] in direction [d], nearest
    first, up to the board edge. *)
Definition ray (r c : Z) (d : Dir) : list Pos :=
  takeWhile onBoard (stepFrom r c d <$> seqZ 1 BOARD_SIZE).

(** The maximal contiguous run of opponent cells at the start of the ray, and
    the cell that ends it ([None] at the board edge). *)
Definition opponentRun (b : list (list Cell)) (player : Cell) (r c : Z)
    (d : Dir) : list Pos :=
  takeWhile (holds b (opposite player)) (ray r c d).

Definition runEnd (b : list (list Cell)) (player : Cell) (r c : Z)
    (d : Dir) : option Pos :=
  head (dropWhile (holds b (opposite player)) (ray r c d)).

(** The run counts only when a cell of the player's colour ends it. *)
Definition flippedInDirection (b : list (list Cell)) (player : Cell)
    (r c : Z) (d : Dir) : list Pos :=
  match runEnd b player r c d with
  | Some q => if holds b player q then opponentRun b player r c d else []
  | None => []
  end.

(** The eight directions by name, row 0 being the top row, in the order the
    specification fixes. *)
Definition dir_up : Dir := mkDir (-1) 0.
Definition dir_down : Dir := mkDir 1 0.
Definition dir_left : Dir := mkDir 0 (-1).
Definition dir_right : Dir := mkDir 0 1.
Definition dir_upLeft : Dir := mkDir (-1) (-1).
Definition dir_upRight : Dir := mkDir (-1) 1.
Definition dir_downLeft : Dir := mkDir 1 (-1).
Definition dir_downRight : Dir := mkDir 1 1.

Definition specDirections : list Dir :=
  [dir_up; dir_down; dir_left; dir_right;
   dir_upLeft; dir_upRight; dir_downLeft; dir_downRight].

Definition flippablePieces_spec (b : list (list Cell)) (r c : Z)
    (player : Cell) : list Pos :=
  concat (flippedInDirection b player r c <$> specDirections).

(** ** Auxiliary list functions of the proofs *)

(** The [n] cells visited by a walk that starts at [(nr, nc)]. *)
Fixpoint cellsFrom (n : nat) (nr nc : Z) (d : Dir) : list Pos :=
  match n with
  | O => []
  | S n' => mkPos nr nc :: cellsFrom n' (nr + dr d) (nc + dc d) d
  end.

(** What a walk over [cells] adds to [flippable], given the [line] it has
    already collected. *)
Definition scan (b : list (list Cell)) (player : Cell) (line : list Pos)
    (cells : list Pos) : list Pos :=
  match dropWhile (holds b (opposite player)) cells with
  | q :: _ =>
      if holds b player q
      then line ++ takeWhile (holds b (opposite player)) cells
      else []
  | [] => []
  end.

(** The value of [getFlippablePieces] on a well-formed board whose row [r]
    exists. *)
Definition flipsOf (b : list (list Cell)) (r c : Z) (player : Cell)
    : list Pos :=
  if onBoard (mkPos r c) && holds b EMPTY (mkPos r c)
  then flippablePieces_spec b r c player
  else [].

(** The cells of the scan of [getValidMoves], in the order of its loops, and
    the moves it keeps. *)
Definition validMovesOf (b : list (list Cell)) (player : Cell) : list Pos :=
  concat ((λ r,
    concat ((λ c,
      if decide (0 < length (flipsOf b r c player))%nat
      then [mkPos r c] else []) <$> seqZ 0 BOARD_SIZE)) <$> seqZ 0 BOARD_SIZE).

(** Number of cells of the board that hold [v]. *)
Definition count (v : Cell) (l : list Cell) : nat :=
  length (filter (λ x, x = v) l).

Definition countOf (v : Cell) (b : list (list Cell)) : nat :=
  count v (concat b).

Definition scoreOf (b : list (list Cell)) : nat * nat :=
  (countOf BLACK b, countOf WHITE b).

(** One step of the counting loop on the value read from a cell. *)
Definition tally (counts : nat * nat) (cell : option Cell) : nat * nat :=
  if decide (cell = Some BLACK) then (S (fst counts), snd counts)
  else if decide (cell = Some WHITE) then (fst counts, S (snd counts))
  else counts.

(** The board after [board[r][c] = v], when the row exists. *)
Definition putCell (b : list (list Cell)) (p : Pos) (v : Cell)
    : list (list Cell) :=
  match js_get b (pos_r p) with
  | Some row => js_set b (pos_r p) (js_set row (pos_c p) v)
  | None => b
  end.

Definition withBoard (b : list (list Cell)) (s : State) : State :=
  mkState b (currentPlayer s) (messageText s) (scoreText s) (timers s).

Definition withPlayer (p : Cell) (s : State) : State :=
  mkState (board s) p (messageText s) (scoreText s) (timers s).

(** The board after a successful [handleMove(r, c)] by [player]. *)
Definition boardAfterMove (b : list (list Cell)) (r c : Z) (player : Cell)
    : list (list Cell) :=
  foldl (λ b' pos, putCell b' pos player)
        (putCell b (mkPos r c) player) (flipsOf b r c player).

(** The state left by [renderBoard] on a well-formed board. *)
Definition rendered (s : State) : State :=
  let b := board s in
  let p := currentPlayer s in
  if decide (validMovesOf b p = []) then
    if decide (validMovesOf b (opponentOf p) = []) then
      mkState b p (resultMessage (countOf BLACK b) (countOf WHITE b))
              (scoreOf b) (timers s)
    else
      mkState b p (MsgPass (colorName p) (colorName (opponentOf p)))
              (scoreOf b) (timers s ++ [opponentOf p])
  else
    mkState b p (MsgTurn (colorName p)) (scoreOf b) (timers s).

(** The invariant of the globals during a game. *)
Definition wf_state (s : State) : Prop :=
  wf_board (board s) ∧ is_player (currentPlayer s) ∧
  Forall is_player (timers s).

(** What holds of the timer queue in every state of one game (lemmas
    [game_inv_no_timer] and [game_inv_run]): a timer is pending only
    while the current player has to pass, and then it is the single one that
    gives the turn to the other player, who can move. *)
Definition game_inv (s : State) : Prop :=
  wf_state s ∧
  (timers s = [] ∨
   (timers s = [opponentOf (currentPlayer s)] ∧
    validMovesOf (board s) (currentPlayer s) = [] ∧
    validMovesOf (board s) (opponentOf (currentPlayer s)) ≠ [])).

(** Number of discs on the board. *)
Definition discs (b : list (list Cell)) : nat :=
  (countOf BLACK b + countOf WHITE b)%nat.

(** Every coordinate pair of the offsets reached by the eight rays. *)
Definition rayOffsets : list (Z * Z) :=
  concat ((λ d, (λ k, (k * dr d, k * dc d)) <$> seqZ 1 BOARD_SIZE)
          <$> DIRECTIONS).

(** A cell that holds a disc. *)
Definition occupied (b : list (list Cell)) (q : Pos) : Prop :=
  ∃ x, cellAt b q = Some x ∧ x ≠ EMPTY.

(** Row-major order on coordinates, and the 64 cells in that order. *)
Definition rowMajorLt (p q : Pos) : Prop :=
  pos_r p < pos_r q ∨ (pos_r p = pos_r q ∧ pos_c p < pos_c q).

#[global] Instance rowMajorLt_dec : RelDecision rowMajorLt.
Proof. intros p q. unfold rowMajorLt. apply _. Defined.

Definition allCells : list Pos :=
  concat ((λ r, concat ((λ c, [mkPos r c]) <$> seqZ 0 BOARD_SIZE))
          <$> seqZ 0 BOARD_SIZE).

(** Example positions.  In [passPosition] BLACK is to move and, once BLACK
    has played (0, 0), WHITE has no move while BLACK still has (7, 0); in
    [lastMovePosition] the move of BLACK at (0, 0) ends the game; in
    [finishedPosition] a single disc is left and nobody can move. *)
Definition emptyRow : list Cell := replicate 8 EMPTY.
Definition edgeRow : list Cell :=
  [EMPTY; WHITE; BLACK; BLACK; BLACK; BLACK; BLACK; BLACK].

Definition passPosition : State :=
  mkState [edgeRow; emptyRow; emptyRow; emptyRow;
           emptyRow; emptyRow; emptyRow; edgeRow]
          BLACK (MsgTurn Kuro) (12%nat, 2%nat) [].

Definition lastMovePosition : State :=
  mkState [edgeRow; emptyRow; emptyRow; emptyRow;
           emptyRow; emptyRow; emptyRow; emptyRow]
          BLACK (MsgTurn Kuro) (6%nat, 1%nat) [].

Definition finishedPosition : State :=
  mkState [[BLACK; EMPTY; EMPTY; EMPTY; EMPTY; EMPTY; EMPTY; EMPTY];
           emptyRow; emptyRow; emptyRow; emptyRow; emptyRow; emptyRow;
           emptyRow]
          WHITE (MsgBlackWins 1 0) (1%nat, 0%nat) [].

(** ** The squares built by [renderBoard] *)

(** The class given to a disc element. *)
Inductive DiscClass : Type := DiscBlack | DiscWhite.

(** One [div.square]: its [data-row] and [data-col], whether it got the
    classes [valid-move] and [clickable] together with the click listener
    that calls [handleMove(r, c)], and the disc appended to it, if any. *)
Record Square : Type := mkSquare {
  square_row : Z;
  square_col : Z;
  square_clickable : bool;
  square_disc : option DiscClass
}.

(** [validMoves.some(move => move.r === r && move.c === c)] *)
Definition isValidMove (validMoves : list Pos) (r c : Z) : bool :=
  existsb (λ move, (pos_r move =? r) && (pos_c move =? c)) validMoves.

(** The loop of [renderBoard] again, this time with the children it appends
    to [boardElement]; [drawSquares] is this loop without them. *)
Definition buildSquares (validMoves : list Pos) : M (list Square) :=
  forUpTo BOARD_SIZE (λ r squares,
    forUpTo BOARD_SIZE (λ c squares,
      let isValid := isValidMove validMoves r c in
      cell ← readCell r c;
      disc ← (if decide (cell ≠ Some EMPTY) then
                cell' ← readCell r c;
                mret (Some (if decide (cell' = Some BLACK)
                            then DiscBlack else DiscWhite))
              else mret None);
      mret (squares ++ [mkSquare r c isValid disc])) squares) [].

(** The disc shown for the value of a cell. *)
Definition discOf (cell : option Cell) : option DiscClass :=
  if decide (cell ≠ Some EMPTY) then
    Some (if decide (cell = Some BLACK) then DiscBlack else DiscWhite)
  else None.

(** ** Counting the moves of a game *)

(** Number of events of [es], run from [s], that change the board: the
    accepted moves. *)
Fixpoint acceptedMoves (s : State) (es : list Event) : nat :=
  match es with
  | [] => 0
  | e :: es' =>
      ((if decide (board (dispatch s e) = board s) then 0 else 1)
       + acceptedMoves (dispatch s e) es')%nat
  end.

(** The score and the message on display are up to date: rendering again
    would show the same. *)
Definition displayInSync (s : State) : Prop :=
  ∃ s', renderBoard s = (Ok tt, s') ∧
        scoreText s' = scoreText s ∧ messageText s' = messageText s.

(** The value of [buildSquares] on a well-formed board. *)
Definition squaresOf (b : list (list Cell)) (validMoves : list Pos)
    : list Square :=
  concat ((λ r,
    concat ((λ c,
      [mkSquare r c (isValidMove validMoves r c)
                (discOf (cellAt b (mkPos r c)))]) <$> seqZ 0 BOARD_SIZE))
    <$> seqZ 0 BOARD_SIZE).

Definition squarePos (q : Square) : Pos :=
  mkPos (square_row q) (square_col q).

(** The board with the two colours exchanged. *)
Definition swapColours (b : list (list Cell)) : list (list Cell) :=
  (λ row : list Cell, opposite <$> row) <$> b.

(** [passPosition] with the colours exchanged and WHITE to move: after WHITE
    has played (0, 0), BLACK has to pass. *)
Definition passPositionWhite : State :=
  mkState (swapColours (board passPosition))
          WHITE (MsgTurn Shiro) (2%nat, 12%nat) [].

(** ** Reasoning in the monad *)

#[local] Arguments seqZ : simpl never.

Lemma bind_ok {A B} (m : M A) (f : A → M B) s a s' :
  m s = (Ok a, s') → (m ≫= f) s = f a s'.
Proof. intros H. unfold mbind, M_bind. by rewrite H. Qed.

Lemma bind_TypeError {A B} (m : M A) (f : A → M B) s s' :
  m s = (TypeError, s') → (m ≫= f) s = (TypeError, s').
Proof. intros H. unfold mbind, M_bind. by rewrite H. Qed.

Lemma ReadOnly_ret {A} (a : A) : ReadOnly (mret a : M A).
Proof. by intros s. Qed.

Lemma ReadOnly_bind {A B} (m : M A) (f : A → M B) :
  ReadOnly m → (∀ a, ReadOnly (f a)) → ReadOnly (m ≫= f).
Proof.
  intros Hm Hf s. unfold mbind, M_bind.
  specialize (Hm s). destruct (m s) as [[a| |] s']; simpl in Hm; subst; auto.
  apply Hf.
Qed.

Lemma ReadOnly_readCell r c : ReadOnly (readCell r c).
Proof.
  intros s. unfold readCell, getBoard, mbind, M_bind.
  by destruct (js_get (board s) r).
Qed.

Lemma ReadOnly_forEach {A B} (l : list A) (body : A → B → M B) acc :
  (∀ x acc', ReadOnly (body x acc')) → ReadOnly (forEach l body acc).
Proof.
  intros Hb. revert acc.
  induction l as [|x l IH]; intros acc; simpl.
  - apply ReadOnly_ret.
  - apply ReadOnly_bind; auto.
Qed.

Lemma ReadOnly_walk fuel player opponent d line nr nc flippable :
  ReadOnly (walk fuel player opponent d line nr nc flippable).
Proof.
  revert line nr nc.
  induction fuel as [|fuel IH]; intros line nr nc; simpl;
    destruct (inRange nr nc); try apply ReadOnly_ret; try by intros s.
  apply ReadOnly_bind; [apply ReadOnly_readCell|].
  intros cur. repeat case_decide; auto using ReadOnly_ret.
Qed.

Lemma ReadOnly_getFlippablePieces r c player :
  ReadOnly (getFlippablePieces r c player).
Proof.
  unfold getFlippablePieces.
  apply ReadOnly_bind; [apply ReadOnly_readCell|].
  intros cell. destruct (_ || _); [apply ReadOnly_ret|].
  apply ReadOnly_forEach. intros. apply ReadOnly_walk.
Qed.

Lemma ReadOnly_getValidMoves player : ReadOnly (getValidMoves player).
Proof.
  unfold getValidMoves, forUpTo.
  apply ReadOnly_forEach. intros r acc.
  apply ReadOnly_forEach. intros c acc'.
  apply ReadOnly_bind; [apply ReadOnly_getFlippablePieces|].
  intros fl. case_decide; apply ReadOnly_ret.
Qed.

Lemma ReadOnly_countDiscs : ReadOnly countDiscs.
Proof.
  unfold countDiscs, forUpTo.
  apply ReadOnly_forEach. intros r acc.
  apply ReadOnly_forEach. intros c acc'.
  apply ReadOnly_bind; [apply ReadOnly_readCell|].
  intros cell. repeat case_decide; apply ReadOnly_ret.
Qed.

(** A loop whose body is read-only and never fails is a fold. *)
Lemma forEach_pure {A B} (l : list A) (body : A → B → M B) (g : B → A → B) s :
  (∀ x acc, x ∈ l → body x acc s = (Ok (g acc x), s)) →
  ∀ acc, forEach l body acc s = (Ok (foldl g acc l), s).
Proof.
  induction l as [|x l IH]; intros Hb acc; simpl; [done|].
  erewrite bind_ok; [|apply Hb; left].
  apply IH. intros y acc' Hy. apply Hb. by right.
Qed.

Lemma foldl_ext_elem {A B} (f g : B → A → B) (l : list A) :
  (∀ acc x, x ∈ l → f acc x = g acc x) →
  ∀ acc, foldl f acc l = foldl g acc l.
Proof.
  induction l as [|x l IH]; intros Hfg acc; simpl; [done|].
  rewrite Hfg by left. apply IH. intros acc' y Hy. apply Hfg. by right.
Qed.

Lemma elem_of_concat {A} (x : A) (ls : list (list A)) :
  x ∈ concat ls ↔ ∃ l, x ∈ l ∧ l ∈ ls.
Proof.
  induction ls as [|l ls IH]; simpl.
  - split; [by intros ?%elem_of_nil|by intros (? & _ & ?%elem_of_nil)].
  - rewrite elem_of_app, IH. split.
    + intros [Hx|(l' & Hx & Hl')]; [exists l|exists l'];
        (split; [done|]); [left|by right].
    + intros (l' & Hx & [->|Hl']%elem_of_cons); [by left|right; eauto].
Qed.

Lemma foldl_app_concat {A B} (f : A → list B) (l : list A) acc :
  foldl (λ a x, a ++ f x) acc l = acc ++ concat (map f l).
Proof.
  revert acc. induction l as [|x l IH]; intros acc; simpl.
  - by rewrite app_nil_r.
  - by rewrite IH, app_assoc.
Qed.

(** ** Cells of a well-formed board *)

Lemma js_get_Some {A} (a : list A) (i : Z) (x : A) :
  js_get a i = Some x ↔ 0 ≤ i ∧ a !! Z.to_nat i = Some x.
Proof.
  unfold js_get. case_decide; split.
  - by intros ?.
  - by intros [_ ?].
  - done.
  - intros [? _]. lia.
Qed.

Lemma js_get_in_bounds {A} (a : list A) (i : Z) :
  0 ≤ i < Z.of_nat (length a) → is_Some (js_get a i).
Proof.
  intros Hi. unfold js_get. rewrite decide_True by lia.
  apply lookup_lt_is_Some. lia.
Qed.

Lemma js_get_out_of_bounds {A} (a : list A) (i : Z) :
  ¬ (0 ≤ i < Z.of_nat (length a)) → js_get a i = None.
Proof.
  intros Hi. unfold js_get. case_decide; [|done].
  apply lookup_ge_None. lia.
Qed.

Lemma inRange_spec nr nc :
  inRange nr nc = true ↔ 0 ≤ nr < BOARD_SIZE ∧ 0 ≤ nc < BOARD_SIZE.
Proof. unfold inRange. rewrite !andb_true_iff. lia. Qed.

Lemma inRange_false nr nc :
  inRange nr nc = false ↔ ¬ (0 ≤ nr < BOARD_SIZE ∧ 0 ≤ nc < BOARD_SIZE).
Proof. rewrite <- inRange_spec. by destruct (inRange nr nc). Qed.

Lemma wf_board_row b r :
  wf_board b → 0 ≤ r < BOARD_SIZE →
  ∃ row, js_get b r = Some row ∧ length row = Z.to_nat BOARD_SIZE.
Proof.
  intros [Hlen Hrows] Hr.
  destruct (js_get_in_bounds b r) as [row Hrow]; [rewrite Hlen; lia|].
  exists row. split; [done|].
  apply js_get_Some in Hrow as [_ Hrow].
  by eapply (Forall_lookup_1 _ _ _ _ Hrows).
Qed.

Lemma wf_board_cell b r c :
  wf_board b → inRange r c = true → is_Some (cellAt b (mkPos r c)).
Proof.
  intros Hwf [Hr Hc]%inRange_spec.
  destruct (wf_board_row b r Hwf Hr) as (row & Hrow & Hlen).
  unfold cellAt; simpl. rewrite Hrow; simpl.
  apply js_get_in_bounds. rewrite Hlen. lia.
Qed.

Lemma wf_board_no_row b r :
  wf_board b → ¬ (0 ≤ r < BOARD_SIZE) → js_get b r = None.
Proof.
  intros [Hlen _] Hr. apply js_get_out_of_bounds. rewrite Hlen.
  unfold BOARD_SIZE in *. lia.
Qed.

Lemma wf_board_no_col b r c :
  wf_board b → 0 ≤ r < BOARD_SIZE → ¬ (0 ≤ c < BOARD_SIZE) →
  cellAt b (mkPos r c) = None.
Proof.
  intros Hwf Hr Hc.
  destruct (wf_board_row b r Hwf Hr) as (row & Hrow & Hlen).
  unfold cellAt; simpl. rewrite Hrow; simpl.
  apply js_get_out_of_bounds. rewrite Hlen. unfold BOARD_SIZE in *. lia.
Qed.

Lemma readCell_row s r c row :
  js_get (board s) r = Some row →
  readCell r c s = (Ok (cellAt (board s) (mkPos r c)), s).
Proof.
  intros Hrow. unfold readCell, getBoard, mbind, M_bind, cellAt; simpl.
  by rewrite Hrow.
Qed.

Lemma readCell_no_row s r c :
  js_get (board s) r = None → readCell r c s = (TypeError, s).
Proof.
  intros Hrow. unfold readCell, getBoard, mbind, M_bind. by rewrite Hrow.
Qed.

Lemma readCell_wf s r c :
  wf_board (board s) → 0 ≤ r < BOARD_SIZE →
  readCell r c s = (Ok (cellAt (board s) (mkPos r c)), s).
Proof.
  intros Hwf Hr. destruct (wf_board_row _ r Hwf Hr) as (row & Hrow & _).
  by eapply readCell_row.
Qed.

Lemma opponentOf_opposite player :
  is_player player → opponentOf player = opposite player.
Proof. by intros [-> | ->]. Qed.

Lemma opponentOf_is_player player : is_player (opponentOf player).
Proof. unfold opponentOf, is_player. case_decide; auto. Qed.

Lemma holds_true b v p : holds b v p = true ↔ cellAt b p = Some v.
Proof. unfold holds. by rewrite bool_decide_eq_true. Qed.

(** ** One walk of [getFlippablePieces] *)

Lemma takeWhile_length_le {A} (P : A → bool) (l : list A) i x :
  l !! i = Some x → P x = false → (length (takeWhile P l) ≤ i)%nat.
Proof.
  revert i. induction l as [|y l IH]; intros [|i] Hi Hx; simpl in *;
    try done.
  - injection Hi as ->. by rewrite Hx.
  - destruct (P y); simpl; [|lia]. specialize (IH i Hi Hx). lia.
Qed.

Lemma walk_scan s player d :
  wf_board (board s) → is_player player →
  ∀ fuel line nr nc flippable,
    (length (takeWhile onBoard (cellsFrom fuel nr nc d)) < fuel)%nat →
    walk fuel player (opponentOf player) d line nr nc flippable s =
    (Ok (flippable ++
         scan (board s) player line (takeWhile onBoard (cellsFrom fuel nr nc d))),
     s).
Proof.
  intros Hwf Hp. rewrite (opponentOf_opposite _ Hp).
  induction fuel as [|fuel IH]; intros line nr nc flippable Hlen;
    [simpl in Hlen; lia|].
  simpl in *. change (onBoard (mkPos nr nc)) with (inRange nr nc) in *.
  destruct (inRange nr nc) eqn:Hin; simpl in *.
  2:{ unfold scan; simpl. by rewrite app_nil_r. }
  pose proof Hin as [Hr _]%inRange_spec.
  rewrite (bind_ok _ _ _ _ _ (readCell_wf s nr nc Hwf Hr)).
  destruct (wf_board_cell _ nr nc Hwf Hin) as [v Hv]. rewrite Hv.
  assert (Hh : ∀ w, holds (board s) w (mkPos nr nc) = bool_decide (v = w)).
  { intros w. unfold holds. rewrite Hv. apply bool_decide_ext.
    split; congruence. }
  unfold scan; simpl. rewrite !Hh.
  destruct Hp as [-> | ->], v; cbn [opposite] in IH |- *;
    repeat case_decide; simplify_eq; repeat case_bool_decide; simplify_eq;
    rewrite ?Hh; repeat case_bool_decide; simplify_eq;
    rewrite ?app_nil_r; try done.
  all: rewrite IH by lia; unfold scan; simpl.
  all: destruct (dropWhile _ _) as [|q rest]; [done|].
  all: destruct (holds (board s) _ q); [|done].
  all: by rewrite <- (app_assoc line [_]).
Qed.

(** ** [getFlippablePieces] on a well-formed board *)

Lemma cellsFrom_steps r c d :
  cellsFrom WALK_FUEL (r + dr d) (c + dc d) d =
  stepFrom r c d <$> seqZ 1 BOARD_SIZE.
Proof.
  change WALK_FUEL with 8%nat.
  change (seqZ 1 BOARD_SIZE) with [1; 2; 3; 4; 5; 6; 7; 8].
  simpl. unfold stepFrom. repeat (f_equal; try lia).
Qed.

Lemma elem_of_DIRECTIONS d :
  d ∈ DIRECTIONS →
  (dr d = -1 ∨ dr d = 0 ∨ dr d = 1) ∧ (dc d = -1 ∨ dc d = 0 ∨ dc d = 1) ∧
  (dr d ≠ 0 ∨ dc d ≠ 0).
Proof.
  unfold DIRECTIONS. rewrite !elem_of_cons, elem_of_nil.
  intros H. repeat (destruct H as [-> | H]; [simpl; lia|]). done.
Qed.

Lemma walk_fuel_enough r c d :
  inRange r c = true → d ∈ DIRECTIONS →
  (length (takeWhile onBoard (cellsFrom WALK_FUEL (r + dr d) (c + dc d) d))
   < WALK_FUEL)%nat.
Proof.
  intros [Hr Hc]%inRange_spec Hd%elem_of_DIRECTIONS.
  rewrite cellsFrom_steps.
  enough (length (takeWhile onBoard (stepFrom r c d <$> seqZ 1 BOARD_SIZE))
          ≤ 7)%nat by (change WALK_FUEL with 8%nat; lia).
  apply (takeWhile_length_le _ _ _ (stepFrom r c d 8)); [done|].
  unfold onBoard, stepFrom; simpl. apply inRange_false.
  unfold BOARD_SIZE in *. lia.
Qed.

Lemma scan_ray b player r c d :
  scan b player [] (ray r c d) = flippedInDirection b player r c d.
Proof.
  unfold scan, flippedInDirection, runEnd, opponentRun.
  by destruct (dropWhile _ _).
Qed.

Lemma walk_direction s player r c d flippable :
  wf_board (board s) → is_player player →
  inRange r c = true → d ∈ DIRECTIONS →
  walk WALK_FUEL player (opponentOf player) d [] (r + dr d) (c + dc d)
       flippable s =
  (Ok (flippable ++ flippedInDirection (board s) player r c d), s).
Proof.
  intros Hwf Hp Hin Hd.
  rewrite walk_scan by auto using walk_fuel_enough.
  rewrite cellsFrom_steps. fold (ray r c d). by rewrite scan_ray.
Qed.

Lemma getFlippablePieces_wf s r c player :
  wf_board (board s) → is_player player → 0 ≤ r < BOARD_SIZE →
  getFlippablePieces r c player s = (Ok (flipsOf (board s) r c player), s).
Proof.
  intros Hwf Hp Hr. unfold getFlippablePieces, flipsOf.
  rewrite (bind_ok _ _ _ _ _ (readCell_wf s r c Hwf Hr)).
  unfold holds, onBoard; cbn [pos_r pos_c].
  destruct (inRange r c) eqn:Hin; cbn [andb].
  - apply inRange_spec in Hin as Hrc.
    replace (r <? 0) with false by lia.
    replace (r >=? BOARD_SIZE) with false by lia.
    replace (c <? 0) with false by lia.
    replace (c >=? BOARD_SIZE) with false by lia.
    rewrite !orb_false_r.
    destruct (bool_decide _); cbn [negb]; [|done].
    rewrite (forEach_pure _ _
      (λ acc d, acc ++ flippedInDirection (board s) player r c d)).
    + by rewrite foldl_app_concat.
    + intros d acc Hd. by apply walk_direction.
  - apply inRange_false in Hin.
    rewrite wf_board_no_col by (auto; lia). done.
Qed.

Lemma getFlippablePieces_no_row s r c player :
  wf_board (board s) → ¬ (0 ≤ r < BOARD_SIZE) →
  getFlippablePieces r c player s = (TypeError, s).
Proof.
  intros Hwf Hr. unfold getFlippablePieces.
  apply bind_TypeError, readCell_no_row. by apply wf_board_no_row.
Qed.

(** The loops of [getFlippablePieces] end within their fuel on every board,
    well-formed or not. *)
Lemma readCell_not_OutOfFuel s r c : fst (readCell r c s) ≠ OutOfFuel.
Proof.
  unfold readCell, getBoard, mbind, M_bind.
  by destruct (js_get (board s) r).
Qed.

Lemma walk_not_OutOfFuel player opponent d s :
  ∀ fuel line nr nc flippable,
    (length (takeWhile onBoard (cellsFrom fuel nr nc d)) < fuel)%nat →
    fst (walk fuel player opponent d line nr nc flippable s) ≠ OutOfFuel.
Proof.
  induction fuel as [|fuel IH]; intros line nr nc flippable Hlen;
    [simpl in Hlen; lia|].
  simpl in *. change (onBoard (mkPos nr nc)) with (inRange nr nc) in *.
  destruct (inRange nr nc); [|done]. simpl in Hlen.
  unfold mbind, M_bind.
  pose proof (readCell_not_OutOfFuel s nr nc) as Hread.
  pose proof (ReadOnly_readCell nr nc s) as Hsame.
  destruct (readCell nr nc s) as [[cur| |] s']; simpl in *; try done.
  subst s'. repeat case_decide; try done; apply IH; lia.
Qed.

Lemma forEach_not_OutOfFuel {A B} (l : list A) (body : A → B → M B) :
  (∀ x acc s, x ∈ l → fst (body x acc s) ≠ OutOfFuel) →
  ∀ acc s, fst (forEach l body acc s) ≠ OutOfFuel.
Proof.
  induction l as [|x l IH]; intros Hb acc s; simpl; [done|].
  unfold mbind, M_bind.
  pose proof (Hb x acc s ltac:(left)) as Hx.
  destruct (body x acc s) as [[acc'| |] s']; simpl in *; try done.
  apply IH. intros y acc'' s'' Hy. apply Hb. by right.
Qed.

Lemma getFlippablePieces_terminates r c player s :
  fst (getFlippablePieces r c player s) ≠ OutOfFuel.
Proof.
  unfold getFlippablePieces, mbind at 1, M_bind.
  pose proof (readCell_not_OutOfFuel s r c) as Hread.
  destruct (readCell r c s) as [[cell| |] s']; cbn [fst] in *; try done.
  destruct (negb _) eqn:Hcell; [done|]. cbn [orb].
  destruct (r <? 0) eqn:H1; [done|].
  destruct (r >=? BOARD_SIZE) eqn:H2; [done|].
  destruct (c <? 0) eqn:H3; [done|].
  destruct (c >=? BOARD_SIZE) eqn:H4; [done|]. cbn [orb].
  apply forEach_not_OutOfFuel. intros d acc s'' Hd.
  apply walk_not_OutOfFuel, walk_fuel_enough; [|done].
  apply inRange_spec. lia.
Qed.

Lemma getValidMoves_terminates player s :
  fst (getValidMoves player s) ≠ OutOfFuel.
Proof.
  unfold getValidMoves, forUpTo.
  apply forEach_not_OutOfFuel. intros r acc s1 _.
  apply forEach_not_OutOfFuel. intros c acc' s2 _.
  unfold mbind, M_bind.
  pose proof (getFlippablePieces_terminates r c player s2) as Hfl.
  destruct (getFlippablePieces r c player s2) as [[fl| |] s3]; simpl in *;
    try done.
  by case_decide.
Qed.

(** ** [getValidMoves] on a well-formed board *)

Lemma elem_of_seqZ_BOARD_SIZE r :
  r ∈ seqZ 0 BOARD_SIZE ↔ 0 ≤ r < BOARD_SIZE.
Proof. rewrite elem_of_seqZ. lia. Qed.

Lemma getValidMoves_wf s player :
  wf_board (board s) → is_player player →
  getValidMoves player s = (Ok (validMovesOf (board s) player), s).
Proof.
  intros Hwf Hp. unfold getValidMoves, forUpTo, validMovesOf.
  rewrite (forEach_pure _ _ (λ acc r, acc ++
    concat ((λ c, if decide (0 < length (flipsOf (board s) r c player))%nat
                  then [mkPos r c] else []) <$> seqZ 0 BOARD_SIZE))).
  - by rewrite foldl_app_concat.
  - intros r acc Hr%elem_of_seqZ_BOARD_SIZE.
    rewrite (forEach_pure _ _ (λ acc c, acc ++
      if decide (0 < length (flipsOf (board s) r c player))%nat
      then [mkPos r c] else [])).
    + by rewrite foldl_app_concat.
    + intros c acc' _.
      rewrite (bind_ok _ _ _ _ _ (getFlippablePieces_wf s r c player Hwf Hp Hr)).
      case_decide; [done|]. by rewrite app_nil_r.
Qed.

(** ** The counting loop *)

Lemma foldl_js_get {A B} (g : B → option A → B) (l pre : list A) acc :
  foldl (λ acc i, g acc (js_get (pre ++ l) i)) acc
        (seqZ (Z.of_nat (length pre)) (Z.of_nat (length l))) =
  foldl (λ acc x, g acc (Some x)) acc l.
Proof.
  revert pre acc. induction l as [|x l IH]; intros pre acc; [done|].
  rewrite length_cons, Nat2Z.inj_succ, seqZ_cons by lia. simpl.
  replace (js_get (pre ++ x :: l) (Z.of_nat (length pre))) with (Some x).
  2:{ symmetry. apply js_get_Some. split; [lia|].
      rewrite Nat2Z.id. by apply list_lookup_middle. }
  rewrite Z.pred_succ.
  specialize (IH (pre ++ [x]) (g acc (Some x))).
  rewrite <- app_assoc, length_app in IH. simpl in IH.
  replace (Z.of_nat (length pre + 1)) with (Z.succ (Z.of_nat (length pre)))
    in IH by lia.
  exact IH.
Qed.

Lemma foldl_tally (l : list Cell) counts :
  foldl (λ acc x, tally acc (Some x)) counts l =
  ((fst counts + count BLACK l)%nat, (snd counts + count WHITE l)%nat).
Proof.
  revert counts. induction l as [|x l IH]; intros [nb nw]; simpl.
  - unfold count. simpl. f_equal; lia.
  - rewrite IH. unfold tally, count. rewrite !filter_cons.
    destruct x; repeat case_decide; simplify_eq; simpl; f_equal; lia.
Qed.

Lemma count_app v (l1 l2 : list Cell) :
  count v (l1 ++ l2) = (count v l1 + count v l2)%nat.
Proof. unfold count. by rewrite filter_app, length_app. Qed.

Lemma countDiscs_rows (rows : list (list Cell)) counts :
  Forall (λ row, length row = Z.to_nat BOARD_SIZE) rows →
  foldl (λ acc row,
           foldl (λ acc' c, tally acc' (js_get row c)) acc (seqZ 0 BOARD_SIZE))
        counts rows =
  ((fst counts + countOf BLACK rows)%nat, (snd counts + countOf WHITE rows)%nat).
Proof.
  intros Hrows. revert counts.
  induction Hrows as [|row rows Hlen _ IH]; intros [nb nw];
    cbn -[seqZ BOARD_SIZE].
  - unfold countOf, count. simpl. f_equal; lia.
  - rewrite IH.
    pose proof (foldl_js_get tally row [] (nb, nw)) as Hrow.
    simpl in Hrow. rewrite Hlen in Hrow.
    change (Z.of_nat (Z.to_nat BOARD_SIZE)) with BOARD_SIZE in Hrow.
    change (Z.of_nat 0) with 0 in Hrow.
    rewrite Hrow, foldl_tally. unfold countOf.
    fold (count BLACK (row ++ concat rows)).
    fold (count WHITE (row ++ concat rows)).
    rewrite !count_app. cbn [fst snd]. f_equal; lia.
Qed.

Lemma countDiscs_wf s :
  wf_board (board s) → countDiscs s = (Ok (scoreOf (board s)), s).
Proof.
  intros Hwf. unfold countDiscs, forUpTo.
  rewrite (forEach_pure _ _ (λ acc r,
    foldl (λ acc' c, tally acc' (cellAt (board s) (mkPos r c))) acc
          (seqZ 0 BOARD_SIZE))).
  2:{ intros r acc Hr%elem_of_seqZ_BOARD_SIZE.
      apply forEach_pure. intros c acc' _.
      rewrite (bind_ok _ _ _ _ _ (readCell_wf s r c Hwf Hr)).
      unfold tally. by repeat case_decide. }
  f_equal. f_equal.
  destruct Hwf as [Hlen Hrows].
  pose proof (foldl_js_get
    (λ acc row, match row with
                | Some row =>
                    foldl (λ acc' c, tally acc' (js_get row c)) acc
                          (seqZ 0 BOARD_SIZE)
                | None => acc
                end) (board s) [] (0%nat, 0%nat)) as Hb.
  simpl in Hb. rewrite Hlen in Hb.
  change (Z.of_nat (Z.to_nat BOARD_SIZE)) with BOARD_SIZE in Hb.
  change (Z.of_nat 0) with 0 in Hb.
  rewrite countDiscs_rows in Hb by done. cbn [fst snd Nat.add] in Hb.
  unfold scoreOf. rewrite <- Hb.
  apply foldl_ext_elem. intros acc r Hr%elem_of_seqZ_BOARD_SIZE.
  destruct (wf_board_row (board s) r (conj Hlen Hrows) Hr) as (row & Hrow & _).
  rewrite Hrow. unfold cellAt. simpl. by rewrite Hrow.
Qed.

(** ** Stores into the board *)

Lemma js_set_length {A} (a : list A) i x : length (js_set a i x) = length a.
Proof. unfold js_set. case_decide; [apply length_insert|done]. Qed.

Lemma js_get_set_eq {A} (a : list A) i x :
  0 ≤ i < Z.of_nat (length a) → js_get (js_set a i x) i = Some x.
Proof.
  intros Hi. unfold js_get, js_set. rewrite !decide_True by lia.
  apply list_lookup_insert_eq. lia.
Qed.

Lemma js_get_set_ne {A} (a : list A) i j x :
  i ≠ j → js_get (js_set a i x) j = js_get a j.
Proof.
  intros Hij. unfold js_get, js_set. repeat case_decide; try done.
  apply list_lookup_insert_ne. lia.
Qed.

Lemma writeCell_row s r c v row :
  js_get (board s) r = Some row →
  writeCell r c v s = (Ok tt, withBoard (putCell (board s) (mkPos r c) v) s).
Proof.
  intros Hrow. unfold writeCell, getBoard, mbind, M_bind, putCell; simpl.
  by rewrite Hrow.
Qed.

Lemma putCell_wf b p v : wf_board b → wf_board (putCell b p v).
Proof.
  intros [Hlen Hrows]. unfold putCell.
  destruct (js_get b (pos_r p)) as [row|] eqn:Hrow; [|done].
  split; [by rewrite js_set_length|].
  unfold js_set at 1. case_decide; [|done].
  apply Forall_insert; [done|]. rewrite js_set_length.
  apply js_get_Some in Hrow as [_ Hrow].
  by eapply (Forall_lookup_1 _ _ _ _ Hrows).
Qed.

Lemma putCell_same b p v :
  wf_board b → onBoard p = true → cellAt (putCell b p v) p = Some v.
Proof.
  intros Hwf [Hr Hc]%inRange_spec.
  destruct (wf_board_row b _ Hwf Hr) as (row & Hrow & Hlen).
  unfold putCell, cellAt. rewrite Hrow.
  rewrite js_get_set_eq; simpl.
  - apply js_get_set_eq. rewrite Hlen. lia.
  - destruct Hwf as [-> _]. lia.
Qed.

Lemma putCell_other b p q v : p ≠ q → cellAt (putCell b p v) q = cellAt b q.
Proof.
  intros Hpq. unfold putCell, cellAt.
  destruct (js_get b (pos_r p)) as [row|] eqn:Hrow; [|done].
  destruct (decide (pos_r p = pos_r q)) as [Heq|Hne].
  - rewrite <- Heq, Hrow.
    destruct (decide (0 ≤ pos_r p < Z.of_nat (length b))) as [Hin|Hout].
    + rewrite js_get_set_eq by done. simpl.
      apply js_get_set_ne. intros Hc. apply Hpq.
      destruct p, q; simpl in *; congruence.
    + unfold js_set at 1. rewrite decide_False by done. by rewrite Hrow.
  - by rewrite js_get_set_ne.
Qed.

Lemma count_cons w x (l : list Cell) :
  count w (x :: l) = ((if decide (x = w) then 1 else 0) + count w l)%nat.
Proof. unfold count. rewrite filter_cons. by case_decide. Qed.

Lemma count_insert w (l : list Cell) i old v :
  l !! i = Some old →
  (count w (<[i:=v]> l) + (if decide (old = w) then 1 else 0) =
   count w l + (if decide (v = w) then 1 else 0))%nat.
Proof.
  intros Hi.
  rewrite insert_take_drop by (by eapply lookup_lt_Some).
  rewrite <- (take_drop_middle l i old Hi) at 3.
  rewrite !count_app, !count_cons.
  repeat case_decide; simpl; lia.
Qed.

Lemma putCell_count w b p old v :
  cellAt b p = Some old →
  (countOf w (putCell b p v) + (if decide (old = w) then 1 else 0) =
   countOf w b + (if decide (v = w) then 1 else 0))%nat.
Proof.
  unfold cellAt, putCell. intros Hcell.
  destruct (js_get b (pos_r p)) as [row|] eqn:Hrow; [|done].
  simpl in Hcell.
  apply js_get_Some in Hrow as [Hr Hrow].
  apply js_get_Some in Hcell as [Hc Hcell].
  pose proof (lookup_lt_Some _ _ _ Hrow).
  pose proof (lookup_lt_Some _ _ _ Hcell).
  unfold js_set. rewrite !decide_True by lia.
  pose proof (count_insert w row _ old v Hcell) as Hcount.
  unfold countOf.
  rewrite insert_take_drop by done.
  rewrite <- (take_drop_middle b _ row Hrow) at 3.
  rewrite !concat_app, !concat_cons, !count_app. lia.
Qed.

(** ** The cells returned by [getFlippablePieces] *)

Lemma takeWhile_elem {A} (P : A → bool) (l : list A) x :
  x ∈ takeWhile P l → P x = true ∧ x ∈ l.
Proof.
  induction l as [|y l IH]; simpl; [by intros ?%elem_of_nil|].
  destruct (P y) eqn:Hy; [|by intros ?%elem_of_nil].
  intros [->|Hx]%elem_of_cons.
  - split; [done|left].
  - destruct (IH Hx). split; [done|by right].
Qed.

Lemma takeWhile_sublist {A} (P : A → bool) (l : list A) :
  sublist (takeWhile P l) l.
Proof.
  induction l as [|y l IH]; simpl; [done|].
  destruct (P y); [by apply sublist_skip|apply sublist_nil_l].
Qed.

(** The run is maximal: the ray is the run followed by what [dropWhile]
    keeps, and the first cell kept, if any, is not an opponent cell. *)
Lemma takeWhile_dropWhile {A} (P : A → bool) (l : list A) :
  takeWhile P l ++ dropWhile P l = l.
Proof.
  induction l as [|y l IH]; simpl; [done|].
  destruct (P y); simpl; [by rewrite IH|done].
Qed.

Lemma dropWhile_head {A} (P : A → bool) (l : list A) x :
  head (dropWhile P l) = Some x → P x = false.
Proof.
  induction l as [|y l IH]; simpl; [done|].
  destruct (P y) eqn:Hy; [done|]. simpl. by intros [= <-].
Qed.

Lemma opponentRun_maximal b player r c d :
  ray r c d =
    opponentRun b player r c d ++
    dropWhile (holds b (opposite player)) (ray r c d) ∧
  Forall (λ q, cellAt b q = Some (opposite player))
         (opponentRun b player r c d) ∧
  ∀ q, runEnd b player r c d = Some q → cellAt b q ≠ Some (opposite player).
Proof.
  unfold opponentRun, runEnd. split; [by rewrite takeWhile_dropWhile|].
  split.
  - apply Forall_forall. intros q [Hq _]%takeWhile_elem.
    by apply holds_true.
  - intros q Hq%dropWhile_head Hcell. apply holds_true in Hcell. congruence.
Qed.

Lemma takeWhile_lookup {A} (P : A → bool) (l : list A) i x :
  l !! i = Some x →
  (∀ j y, (j ≤ i)%nat → l !! j = Some y → P y = true) →
  takeWhile P l !! i = Some x.
Proof.
  revert i. induction l as [|z l IH]; intros i Hi Hall; [done|].
  simpl. rewrite (Hall 0%nat z) by (done || lia).
  destruct i as [|i]; [done|]. simpl in *.
  apply IH; [done|]. intros j y Hj Hy. apply (Hall (S j)); [lia|done].
Qed.

(** The ray misses no cell of the walk: every cell reached from [(r, c)]
    without leaving the board is on it. *)
Lemma ray_complete r c d k :
  inRange r c = true → d ∈ DIRECTIONS → 1 ≤ k →
  (∀ j, 1 ≤ j ≤ k → onBoard (stepFrom r c d j) = true) →
  stepFrom r c d k ∈ ray r c d.
Proof.
  intros [Hr Hc]%inRange_spec Hd%elem_of_DIRECTIONS Hk Hall.
  assert (k ≤ 7) as Hk7.
  { specialize (Hall k ltac:(lia)).
    apply inRange_spec in Hall. unfold stepFrom in Hall; simpl in Hall.
    unfold BOARD_SIZE in *. nia. }
  apply list_elem_of_lookup. exists (Z.to_nat (k - 1)).
  apply takeWhile_lookup.
  - rewrite list_lookup_fmap.
    rewrite (proj2 (lookup_seqZ 1 BOARD_SIZE _ k)); [done|].
    unfold BOARD_SIZE. lia.
  - intros j y Hj. rewrite list_lookup_fmap.
    destruct (seqZ 1 BOARD_SIZE !! j) as [k'|] eqn:Hk'; [|done].
    apply lookup_seqZ in Hk' as [-> _]. intros [= <-].
    apply Hall. lia.
Qed.

Lemma flippedInDirection_sublist b player r c d :
  sublist (flippedInDirection b player r c d)
          (stepFrom r c d <$> seqZ 1 BOARD_SIZE).
Proof.
  unfold flippedInDirection, opponentRun, ray.
  destruct (runEnd _ _ _ _ _) as [q|]; [|apply sublist_nil_l].
  destruct (holds _ _ q); [|apply sublist_nil_l].
  etrans; apply takeWhile_sublist.
Qed.

Lemma elem_of_flippedInDirection b player r c d q :
  q ∈ flippedInDirection b player r c d →
  onBoard q = true ∧ cellAt b q = Some (opposite player).
Proof.
  unfold flippedInDirection, opponentRun, ray.
  destruct (runEnd _ _ _ _ _) as [q'|]; [|by intros ?%elem_of_nil].
  destruct (holds _ _ q'); [|by intros ?%elem_of_nil].
  intros [Hopp [Hon _]%takeWhile_elem]%takeWhile_elem.
  by apply holds_true in Hopp.
Qed.

Lemma flipsOf_nonempty b r c player :
  flipsOf b r c player ≠ [] →
  inRange r c = true ∧ cellAt b (mkPos r c) = Some EMPTY.
Proof.
  unfold flipsOf, onBoard; simpl.
  destruct (inRange r c); simpl; [|done].
  destruct (holds _ _ _) eqn:Hh; [|done].
  by apply holds_true in Hh.
Qed.

Lemma flipsOf_occupied b r c player :
  cellAt b (mkPos r c) ≠ Some EMPTY → flipsOf b r c player = [].
Proof.
  intros Hne. destruct (decide (flipsOf b r c player = [])) as [|Hf]; [done|].
  by apply flipsOf_nonempty in Hf as [_ ?].
Qed.

Lemma elem_of_flipsOf b r c player q :
  q ∈ flipsOf b r c player →
  onBoard q = true ∧ cellAt b q = Some (opposite player).
Proof.
  unfold flipsOf. destruct (_ && _); [|by intros ?%elem_of_nil].
  unfold flippablePieces_spec.
  intros (l & Hq & (d & -> & _)%list_elem_of_fmap)%elem_of_concat.
  by eapply elem_of_flippedInDirection.
Qed.

Lemma rays_as_offsets r c :
  concat ((λ d, stepFrom r c d <$> seqZ 1 BOARD_SIZE) <$> DIRECTIONS) =
  (λ o, mkPos (r + o.1) (c + o.2)) <$> rayOffsets.
Proof. reflexivity. Qed.

Lemma rayOffsets_NoDup : NoDup rayOffsets.
Proof. apply (bool_decide_unpack _). by vm_compute. Qed.

Lemma flippablePieces_spec_sublist b r c player :
  sublist (flippablePieces_spec b r c player)
          (concat ((λ d, stepFrom r c d <$> seqZ 1 BOARD_SIZE) <$> DIRECTIONS)).
Proof.
  unfold flippablePieces_spec. change specDirections with DIRECTIONS.
  induction DIRECTIONS as [|d ds IH]; [done|].
  rewrite !fmap_cons, !concat_cons.
  apply sublist_app; [apply flippedInDirection_sublist|done].
Qed.

Lemma flipsOf_NoDup b r c player : NoDup (flipsOf b r c player).
Proof.
  unfold flipsOf. destruct (_ && _); [|apply NoDup_nil_2].
  eapply sublist_NoDup; [|apply flippablePieces_spec_sublist].
  rewrite rays_as_offsets.
  apply NoDup_fmap_2; [|apply rayOffsets_NoDup].
  intros [a1 a2] [b1 b2] Heq. simpl in Heq.
  injection Heq as H1 H2. f_equal; lia.
Qed.

(** ** [renderBoard] and the status it reports *)

Lemma length_zero_iff {A} (l : list A) : length l = 0%nat ↔ l = [].
Proof. by destruct l. Qed.

Lemma updateScore_wf s :
  wf_board (board s) →
  updateScore s =
  (Ok tt, mkState (board s) (currentPlayer s) (messageText s)
                  (scoreOf (board s)) (timers s)).
Proof.
  intros Hwf. unfold updateScore.
  by rewrite (bind_ok _ _ _ _ _ (countDiscs_wf s Hwf)).
Qed.

Lemma endGame_wf s :
  wf_board (board s) →
  endGame s =
  (Ok tt, mkState (board s) (currentPlayer s)
                  (resultMessage (countOf BLACK (board s))
                                 (countOf WHITE (board s)))
                  (scoreText s) (timers s)).
Proof.
  intros Hwf. unfold endGame.
  by rewrite (bind_ok _ _ _ _ _ (countDiscs_wf s Hwf)).
Qed.

Lemma checkGameStatus_wf s :
  wf_board (board s) → is_player (currentPlayer s) →
  checkGameStatus (validMovesOf (board s) (currentPlayer s)) s =
  (Ok tt, rendered s).
Proof.
  intros Hwf Hp. unfold checkGameStatus, rendered.
  rewrite (bind_ok _ _ _ _ _ (updateScore_wf s Hwf)).
  destruct s as [b p m sc ts]; cbn [board currentPlayer messageText timers] in *.
  set (s1 := mkState b p m (scoreOf b) ts).
  destruct (decide (validMovesOf b p = [])) as [He|Hne].
  - rewrite decide_True by (by apply length_zero_iff).
    rewrite (bind_ok _ _ s1 p s1) by done. cbn zeta.
    rewrite (bind_ok _ _ _ _ _
      (getValidMoves_wf s1 (opponentOf p) Hwf (opponentOf_is_player p))).
    cbn [board s1].
    destruct (decide (validMovesOf b (opponentOf p) = [])) as [He'|Hne'].
    + rewrite decide_True by (by apply length_zero_iff).
      by rewrite endGame_wf.
    + rewrite decide_False by (by rewrite length_zero_iff).
      done.
  - rewrite decide_False by (by rewrite length_zero_iff).
    done.
Qed.

Lemma drawSquares_wf s : wf_board (board s) → drawSquares s = (Ok tt, s).
Proof.
  intros Hwf. unfold drawSquares, forUpTo.
  rewrite (forEach_pure _ _ (λ _ _, tt)); [done|].
  intros r [] Hr%elem_of_seqZ_BOARD_SIZE.
  rewrite (forEach_pure _ _ (λ _ _, tt)); [done|].
  intros c [] _. by rewrite (bind_ok _ _ _ _ _ (readCell_wf s r c Hwf Hr)).
Qed.

Lemma renderBoard_wf s :
  wf_board (board s) → is_player (currentPlayer s) →
  renderBoard s = (Ok tt, rendered s).
Proof.
  intros Hwf Hp. unfold renderBoard.
  rewrite (bind_ok _ _ s (currentPlayer s) s) by done.
  rewrite (bind_ok _ _ _ _ _ (getValidMoves_wf s _ Hwf Hp)).
  rewrite (bind_ok _ _ _ _ _ (drawSquares_wf s Hwf)).
  by apply checkGameStatus_wf.
Qed.

Lemma rendered_board s : board (rendered s) = board s.
Proof. unfold rendered. by repeat case_decide. Qed.

Lemma rendered_currentPlayer s :
  currentPlayer (rendered s) = currentPlayer s.
Proof. unfold rendered. by repeat case_decide. Qed.

Lemma rendered_scoreText s : scoreText (rendered s) = scoreOf (board s).
Proof. unfold rendered. by repeat case_decide. Qed.

Lemma rendered_wf s : wf_state s → wf_state (rendered s).
Proof.
  intros (Hwf & Hp & Hts). unfold rendered.
  repeat case_decide; (split; [|split]); simpl; try done.
  apply Forall_app. split; [done|].
  apply Forall_singleton, opponentOf_is_player.
Qed.

(** ** [handleMove] on a well-formed board *)

Lemma forEach_writeCell (l : list Pos) v s :
  wf_board (board s) → Forall (λ p, onBoard p = true) l →
  forEach l (λ pos _, writeCell (pos_r pos) (pos_c pos) v) tt s =
  (Ok tt, withBoard (foldl (λ b' pos, putCell b' pos v) (board s) l) s).
Proof.
  intros Hwf Hl. revert s Hwf.
  induction Hl as [|p l Hp _ IH]; intros s Hwf; simpl.
  - by destruct s.
  - apply inRange_spec in Hp as [Hr _].
    destruct (wf_board_row _ _ Hwf Hr) as (row & Hrow & _).
    rewrite (bind_ok _ _ _ _ _ (writeCell_row s _ (pos_c p) v row Hrow)).
    rewrite IH by (by apply putCell_wf). by destruct p.
Qed.

Lemma foldl_putCell_wf (l : list Pos) v b :
  wf_board b → wf_board (foldl (λ b' pos, putCell b' pos v) b l).
Proof.
  revert b. induction l as [|p l IH]; intros b Hwf; simpl; [done|].
  by apply IH, putCell_wf.
Qed.

Lemma boardAfterMove_wf b r c player :
  wf_board b → wf_board (boardAfterMove b r c player).
Proof. intros Hwf. by apply foldl_putCell_wf, putCell_wf. Qed.

Lemma handleMove_wf s r c :
  wf_board (board s) → is_player (currentPlayer s) → 0 ≤ r < BOARD_SIZE →
  handleMove r c s =
  if decide (flipsOf (board s) r c (currentPlayer s) = []) then (Ok tt, s)
  else
    (Ok tt,
     rendered (withPlayer (opponentOf (currentPlayer s))
                 (withBoard (boardAfterMove (board s) r c (currentPlayer s)) s))).
Proof.
  intros Hwf Hp Hr. unfold handleMove.
  rewrite (bind_ok _ _ s (currentPlayer s) s) by done.
  rewrite (bind_ok _ _ _ _ _ (getFlippablePieces_wf s r c _ Hwf Hp Hr)).
  destruct (decide (flipsOf _ _ _ _ = [])) as [He|Hne].
  - rewrite He. by rewrite decide_False by (simpl; lia).
  - rewrite decide_True
      by (destruct (flipsOf _ _ _ _); [done|simpl; lia]).
    destruct (wf_board_row _ _ Hwf Hr) as (row & Hrow & _).
    rewrite (bind_ok _ _ _ _ _ (writeCell_row s r c _ row Hrow)).
    set (s1 := withBoard (putCell (board s) (mkPos r c) (currentPlayer s)) s).
    assert (Hwf1 : wf_board (board s1)) by apply putCell_wf, Hwf.
    assert (Hon : Forall (λ p, onBoard p = true)
                         (flipsOf (board s) r c (currentPlayer s))).
    { apply Forall_forall. intros q Hq. by apply elem_of_flipsOf in Hq as [? _]. }
    rewrite (bind_ok _ _ _ _ _
               (forEach_writeCell _ (currentPlayer s) s1 Hwf1 Hon)).
    unfold switchTurn.
    erewrite bind_ok by reflexivity.
    erewrite bind_ok by reflexivity.
    rewrite renderBoard_wf; [done| |apply opponentOf_is_player].
    by apply boardAfterMove_wf.
Qed.

Lemma handleMove_no_row s r c :
  wf_board (board s) → ¬ (0 ≤ r < BOARD_SIZE) →
  handleMove r c s = (TypeError, s).
Proof.
  intros Hwf Hr. unfold handleMove.
  rewrite (bind_ok _ _ s (currentPlayer s) s) by done.
  by apply bind_TypeError, getFlippablePieces_no_row.
Qed.

(** ** The board after a move *)

Lemma putCell_occupied b p q v :
  wf_board b → onBoard p = true → v ≠ EMPTY →
  occupied b q → occupied (putCell b p v) q.
Proof.
  intros Hwf Hp Hv (x & Hx & Hne).
  destruct (decide (p = q)) as [->|Hpq].
  - exists v. by rewrite putCell_same.
  - exists x. by rewrite putCell_other.
Qed.

Lemma putCell_discs_occupied b p v :
  v ≠ EMPTY → occupied b p → discs (putCell b p v) = discs b.
Proof.
  intros Hv (x & Hx & Hne). unfold discs.
  pose proof (putCell_count BLACK b p x v Hx).
  pose proof (putCell_count WHITE b p x v Hx).
  destruct x, v; repeat case_decide; simplify_eq; lia.
Qed.

Lemma putCell_discs_empty b p v :
  v ≠ EMPTY → cellAt b p = Some EMPTY → discs (putCell b p v) = S (discs b).
Proof.
  intros Hv Hx. unfold discs.
  pose proof (putCell_count BLACK b p EMPTY v Hx).
  pose proof (putCell_count WHITE b p EMPTY v Hx).
  destruct v; repeat case_decide; simplify_eq; lia.
Qed.

Lemma foldl_putCell_discs (l : list Pos) v b :
  wf_board b → v ≠ EMPTY →
  Forall (λ q, onBoard q = true) l → Forall (occupied b) l →
  discs (foldl (λ b' pos, putCell b' pos v) b l) = discs b.
Proof.
  intros Hwf Hv Hon. revert b Hwf.
  induction Hon as [|p l Hp Hon IH]; intros b Hwf Hocc; simpl; [done|].
  apply Forall_cons in Hocc as [Hp' Hocc].
  rewrite IH.
  - by apply putCell_discs_occupied.
  - by apply putCell_wf.
  - eapply Forall_impl; [exact Hocc|]. intros q. by apply putCell_occupied.
Qed.

Lemma is_player_not_EMPTY p : is_player p → p ≠ EMPTY.
Proof. by intros [-> | ->]. Qed.

Lemma opposite_not_EMPTY p : is_player p → opposite p ≠ EMPTY.
Proof. by intros [-> | ->]. Qed.

Lemma boardAfterMove_discs b r c player :
  wf_board b → is_player player → flipsOf b r c player ≠ [] →
  discs (boardAfterMove b r c player) = S (discs b).
Proof.
  intros Hwf Hp [Hin Hempty]%flipsOf_nonempty. unfold boardAfterMove.
  pose proof (is_player_not_EMPTY _ Hp) as Hv.
  rewrite foldl_putCell_discs; try done.
  - by apply putCell_discs_empty.
  - by apply putCell_wf.
  - apply Forall_forall. intros q Hq. by apply elem_of_flipsOf in Hq as [? _].
  - apply Forall_forall. intros q [Hon Hq]%elem_of_flipsOf.
    apply putCell_occupied; try done.
    exists (opposite player). split; [done|by apply opposite_not_EMPTY].
Qed.

Lemma foldl_putCell_cell (l : list Pos) v b q :
  wf_board b → Forall (λ p, onBoard p = true) l →
  cellAt (foldl (λ b' pos, putCell b' pos v) b l) q =
  if decide (q ∈ l) then Some v else cellAt b q.
Proof.
  intros Hwf Hon. revert b Hwf.
  induction Hon as [|p l Hp Hon IH]; intros b Hwf; simpl.
  - done.
  - rewrite IH by (by apply putCell_wf).
    destruct (decide (q ∈ l)) as [Hq|Hq].
    + rewrite decide_True; [done|by right].
    + destruct (decide (q = p)) as [->|Hne].
      * rewrite decide_True by left. by apply putCell_same.
      * rewrite decide_False by (rewrite elem_of_cons; tauto).
        by apply putCell_other.
Qed.

(** The move sets [(r, c)] and the flipped cells to the mover's colour and
    leaves every other cell as it was. *)
Lemma boardAfterMove_cell b r c player q :
  wf_board b → flipsOf b r c player ≠ [] →
  cellAt (boardAfterMove b r c player) q =
  if decide (q = mkPos r c ∨ q ∈ flipsOf b r c player) then Some player
  else cellAt b q.
Proof.
  intros Hwf [Hin _]%flipsOf_nonempty. unfold boardAfterMove.
  rewrite foldl_putCell_cell.
  - destruct (decide (q ∈ _)) as [Hq|Hq].
    + rewrite decide_True; [done|by right].
    + destruct (decide (q = mkPos r c)) as [->|Hne].
      * rewrite decide_True by (by left). by apply putCell_same.
      * rewrite decide_False by tauto. by apply putCell_other.
  - by apply putCell_wf.
  - apply Forall_forall. intros p Hp. by apply elem_of_flipsOf in Hp as [? _].
Qed.

Lemma boardAfterMove_changed b r c player :
  wf_board b → is_player player → flipsOf b r c player ≠ [] →
  boardAfterMove b r c player ≠ b.
Proof.
  intros Hwf Hp Hne Heq.
  pose proof (boardAfterMove_discs b r c player Hwf Hp Hne) as Hd.
  rewrite Heq in Hd. lia.
Qed.

(** The stores of [handleMove] all fall on existing cells. *)
Lemma handleMove_stores_in_bounds b r c player :
  flipsOf b r c player ≠ [] →
  Forall (λ p, onBoard p = true) (mkPos r c :: flipsOf b r c player).
Proof.
  intros [Hin _]%flipsOf_nonempty. apply Forall_cons. split; [done|].
  apply Forall_forall. intros p Hp. by apply elem_of_flipsOf in Hp as [? _].
Qed.

(** ** The list of valid moves *)

Lemma elem_of_validMovesOf b player p :
  p ∈ validMovesOf b player ↔
  onBoard p = true ∧ flipsOf b (pos_r p) (pos_c p) player ≠ [].
Proof.
  unfold validMovesOf. rewrite elem_of_concat. split.
  - intros (l & Hp & (r & -> & Hr%elem_of_seqZ_BOARD_SIZE)%list_elem_of_fmap).
    apply elem_of_concat in Hp
      as (l & Hp & (c & -> & Hc%elem_of_seqZ_BOARD_SIZE)%list_elem_of_fmap).
    case_decide as Hlen; [|by apply elem_of_nil in Hp].
    apply list_elem_of_singleton in Hp as ->. simpl. split.
    + by apply inRange_spec.
    + intros He. rewrite He in Hlen. simpl in Hlen. lia.
  - intros [[Hr Hc]%inRange_spec Hne]. destruct p as [r c].
    cbn [pos_r pos_c] in *.
    set (inner := λ r' c',
      if decide (0 < length (flipsOf b r' c' player))%nat
      then [mkPos r' c'] else []).
    exists (concat (inner r <$> seqZ 0 BOARD_SIZE)). split.
    + apply elem_of_concat. exists (inner r c). split.
      * unfold inner. rewrite decide_True; [by apply list_elem_of_singleton|].
        destruct (flipsOf b r c player); [done|simpl; lia].
      * apply list_elem_of_fmap_2. by apply elem_of_seqZ_BOARD_SIZE.
    + apply (list_elem_of_fmap_2
               (λ r', concat (inner r' <$> seqZ 0 BOARD_SIZE))).
      by apply elem_of_seqZ_BOARD_SIZE.
Qed.

Lemma validMovesOf_nil b player :
  validMovesOf b player = [] ↔ ∀ r c, flipsOf b r c player = [].
Proof.
  split.
  - intros He r c.
    destruct (decide (flipsOf b r c player = [])) as [|Hne]; [done|].
    assert (mkPos r c ∈ validMovesOf b player) as Hin.
    { apply elem_of_validMovesOf. split; [|done].
      by apply flipsOf_nonempty in Hne as [? _]. }
    rewrite He in Hin. by apply elem_of_nil in Hin.
  - intros Hall. destruct (validMovesOf b player) as [|p l] eqn:He; [done|].
    assert (p ∈ validMovesOf b player) as Hin by (rewrite He; left).
    apply elem_of_validMovesOf in Hin as [_ Hne]. by rewrite Hall in Hne.
Qed.

Lemma sublist_concat_fmap {A B} (f g : A → list B) (l : list A) :
  (∀ x, sublist (f x) (g x)) →
  sublist (concat (f <$> l)) (concat (g <$> l)).
Proof.
  intros Hfg. induction l as [|x l IH]; [done|].
  rewrite !fmap_cons, !concat_cons. by apply sublist_app.
Qed.

Lemma validMovesOf_sublist b player : sublist (validMovesOf b player) allCells.
Proof.
  unfold validMovesOf, allCells.
  apply sublist_concat_fmap. intros r.
  apply sublist_concat_fmap. intros c.
  case_decide; [done|apply sublist_nil_l].
Qed.

Lemma allCells_sorted : StronglySorted rowMajorLt allCells.
Proof. apply (bool_decide_unpack _). by vm_compute. Qed.

Lemma allCells_NoDup : NoDup allCells.
Proof. apply (bool_decide_unpack _). by vm_compute. Qed.

Lemma sublist_StronglySorted {A} (R : A → A → Prop) (l1 l2 : list A) :
  sublist l1 l2 → StronglySorted R l2 → StronglySorted R l1.
Proof.
  induction 1 as [|x l1 l2 Hsub IH|x l1 l2 Hsub IH]; intros Hs.
  - constructor.
  - apply StronglySorted_inv in Hs as [Hs Hall]. constructor; [auto|].
    apply Forall_forall. intros y Hy.
    eapply (proj1 (Forall_forall _ _) Hall), elem_of_sublist; done.
  - apply StronglySorted_inv in Hs as [Hs _]. auto.
Qed.

(** ** Events and the invariant of a game *)

Create HintDb othello.
#[local] Hint Resolve opponentOf_is_player is_player_not_EMPTY
  opposite_not_EMPTY putCell_wf boardAfterMove_wf : othello.

Lemma opponentOf_involutive p : is_player p → opponentOf (opponentOf p) = p.
Proof. by intros [-> | ->]. Qed.

Lemma handleMove_snd s r c :
  wf_state s →
  snd (handleMove r c s) =
  if decide (flipsOf (board s) r c (currentPlayer s) = []) then s
  else rendered (withPlayer (opponentOf (currentPlayer s))
                  (withBoard (boardAfterMove (board s) r c (currentPlayer s)) s)).
Proof.
  intros (Hwf & Hp & _).
  destruct (decide (0 ≤ r < BOARD_SIZE)) as [Hr|Hr].
  - rewrite handleMove_wf by done. by case_decide.
  - rewrite handleMove_no_row by done. rewrite decide_True; [done|].
    apply flipsOf_occupied. unfold cellAt; simpl.
    by rewrite wf_board_no_row.
Qed.

Lemma fireTimer_wf s :
  wf_state s →
  fireTimer s =
  match timers s with
  | [] => (Ok tt, s)
  | p :: rest =>
      (Ok tt, rendered (mkState (board s) p (messageText s) (scoreText s) rest))
  end.
Proof.
  intros (Hwf & Hp & Hts). unfold fireTimer, popTimer, mbind, M_bind.
  destruct (timers s) as [|p rest]; [done|].
  apply Forall_cons in Hts as [Hp' _].
  unfold timerCallback. erewrite bind_ok by reflexivity.
  by rewrite renderBoard_wf.
Qed.

Lemma dispatch_wf s e : wf_state s → wf_state (dispatch s e).
Proof.
  intros Hs. pose proof Hs as (Hwf & Hp & Hts).
  destruct e as [r c|]; unfold dispatch, handler.
  - rewrite handleMove_snd by done. case_decide; [done|].
    apply rendered_wf. split; [|split]; simpl; auto with othello.
  - rewrite fireTimer_wf by done.
    destruct (timers s) as [|p rest] eqn:Ht; [done|]. simpl.
    apply Forall_cons in Hts as [Hp' Hrest].
    by apply rendered_wf.
Qed.

Lemma run_wf s es : wf_state s → wf_state (run s es).
Proof.
  revert s. induction es as [|e es IH]; intros s Hs; [done|].
  simpl. by apply IH, dispatch_wf.
Qed.

Lemma dispatch_discs s e :
  wf_state s → (discs (board s) ≤ discs (board (dispatch s e)))%nat.
Proof.
  intros Hs. pose proof Hs as (Hwf & Hp & Hts).
  destruct e as [r c|]; unfold dispatch, handler.
  - rewrite handleMove_snd by done. case_decide; [done|].
    rewrite rendered_board. simpl.
    rewrite boardAfterMove_discs by done. lia.
  - rewrite fireTimer_wf by done.
    destruct (timers s) as [|p rest]; [done|]. simpl.
    by rewrite rendered_board.
Qed.

Lemma run_discs s es :
  wf_state s → (discs (board s) ≤ discs (board (run s es)))%nat.
Proof.
  revert s. induction es as [|e es IH]; intros s Hs; [done|].
  simpl. etrans; [apply (dispatch_discs s e Hs)|].
  by apply IH, dispatch_wf.
Qed.

Lemma newGameState_wf : wf_state newGameState.
Proof.
  split; [|split].
  - split; [done|]. vm_compute. repeat constructor.
  - by left.
  - vm_compute. constructor.
Qed.

(** ** The timer queue during a game *)

Lemma game_inv_no_timer s : wf_state s → timers s = [] → game_inv s.
Proof. intros Hs Ht. split; [done|by left]. Qed.

Lemma rendered_game_inv s :
  wf_state s → timers s = [] → game_inv (rendered s).
Proof.
  intros Hs Ht. split; [by apply rendered_wf|].
  unfold rendered. rewrite Ht.
  destruct (decide (validMovesOf _ (currentPlayer s) = [])) as [He|Hne];
    [|by left].
  destruct (decide (validMovesOf _ (opponentOf (currentPlayer s)) = []))
    as [He'|Hne']; [by left|].
  right. by cbn [board currentPlayer timers app].
Qed.

Lemma game_inv_move_no_timer s r c :
  game_inv s → flipsOf (board s) r c (currentPlayer s) ≠ [] → timers s = [].
Proof.
  intros [_ [Ht|(_ & He & _)]] Hne; [done|].
  destruct Hne. by apply validMovesOf_nil.
Qed.

Lemma game_inv_terminal_no_timer s :
  game_inv s →
  validMovesOf (board s) BLACK = [] → validMovesOf (board s) WHITE = [] →
  timers s = [].
Proof.
  intros [_ [Ht|(_ & _ & Hne)]] HB HW; [done|].
  destruct Hne. by destruct (opponentOf_is_player (currentPlayer s)) as [-> | ->].
Qed.

Lemma dispatch_game_inv s e : game_inv s → game_inv (dispatch s e).
Proof.
  intros Hinv. pose proof Hinv as [Hs Ht]. pose proof Hs as (Hwf & Hp & Hts).
  destruct e as [r c|]; unfold dispatch, handler.
  - rewrite handleMove_snd by done.
    destruct (decide (flipsOf _ _ _ _ = [])) as [He|Hne]; [done|].
    apply rendered_game_inv.
    + split; [|split]; simpl; auto with othello.
    + simpl. by eapply game_inv_move_no_timer.
  - rewrite fireTimer_wf by done.
    destruct Ht as [Ht|(Ht & He & Hne)]; rewrite Ht; [done|].
    cbn [snd]. apply rendered_game_inv; [|done].
    split; [|split]; simpl; auto with othello.
Qed.

Lemma game_inv_run s es : game_inv s → game_inv (run s es).
Proof.
  revert s. induction es as [|e es IH]; intros s Hs; [done|].
  simpl. by apply IH, dispatch_game_inv.
Qed.

Lemma newGameState_game_inv es : game_inv (run newGameState es).
Proof.
  apply game_inv_run, game_inv_no_timer; [apply newGameState_wf|done].
Qed.

Lemma passPosition_wf : wf_state passPosition.
Proof.
  split; [|split].
  - split; [done|]. vm_compute. repeat constructor.
  - by left.
  - constructor.
Qed.

Lemma finishedPosition_wf : wf_state finishedPosition.
Proof.
  split; [|split].
  - split; [done|]. vm_compute. repeat constructor.
  - by right.
  - constructor.
Qed.

(** From [handleMove r c s = (Ok tt, s')] with a changed board: the row is in
    range, the flip list is non-empty and [s'] is the rendered state after
    the move. *)
Ltac accepted_move Hmove Hr Hne :=
  lazymatch type of Hmove with
  | handleMove ?r ?c ?s = _ =>
      destruct (decide (0 ≤ r < BOARD_SIZE)) as [Hr|Hr];
        [|by rewrite handleMove_no_row in Hmove];
      rewrite handleMove_wf in Hmove by done;
      destruct (decide (flipsOf (board s) r c (currentPlayer s) = []))
        as [Hne|Hne];
        [by injection Hmove as <-|injection Hmove as Hmove]
  end.

(** * The claims *)

(** C1.  On every well-formed board, for every player and every in-range
    EMPTY cell [(r, c)], [getFlippablePieces(r, c, player)] returns the
    concatenation, over the eight directions in the order up, down, left,
    right, up-left, up-right, down-left, down-right, of the maximal run of
    opponent cells met walking outward from [(r, c)], nearest first, a run
    being kept only when a cell of the player's colour ends it. *)
Theorem getFlippablePieces_by_direction s r c player :
  wf_board (board s) → is_player player →
  inRange r c = true → cellAt (board s) (mkPos r c) = Some EMPTY →
  getFlippablePieces r c player s =
  (Ok (flippablePieces_spec (board s) r c player), s).
Proof.
  intros Hwf Hp Hin Hempty.
  pose proof Hin as [Hr _]%inRange_spec.
  rewrite getFlippablePieces_wf by done. unfold flipsOf.
  change (onBoard (mkPos r c)) with (inRange r c). rewrite Hin.
  by rewrite (proj2 (holds_true _ _ _) Hempty).
Qed.

Lemma getFlippablePieces_by_direction_witness :
  wf_board (board newGameState) ∧ is_player BLACK ∧
  inRange 2 3 = true ∧ cellAt (board newGameState) (mkPos 2 3) = Some EMPTY ∧
  flippablePieces_spec (board newGameState) 2 3 BLACK = [mkPos 3 3] ∧
  getFlippablePieces 2 3 BLACK newGameState =
  (Ok (flippablePieces_spec (board newGameState) 2 3 BLACK), newGameState).
Proof.
  split; [apply newGameState_wf|].
  split; [left; reflexivity|].
  split; [reflexivity|]. split; [reflexivity|]. split; [reflexivity|].
  apply (getFlippablePieces_by_direction newGameState 2 3 BLACK).
  - apply newGameState_wf.
  - left; reflexivity.
  - reflexivity.
  - reflexivity.
Defined.

(** C2.  For every well-formed state and every in-range [(r, c)],
    [handleMove(r, c)] places a disc (changes the board) exactly when
    [getFlippablePieces(r, c, currentPlayer)] is non-empty; when it is empty,
    in particular whenever the cell is not EMPTY, the call returns with the
    state unchanged. *)
Theorem handleMove_accepts_iff_flippable s r c :
  wf_state s → inRange r c = true →
  ∃ flippable s',
    getFlippablePieces r c (currentPlayer s) s = (Ok flippable, s) ∧
    handleMove r c s = (Ok tt, s') ∧
    (board s' ≠ board s ↔ flippable ≠ []) ∧
    (flippable ≠ [] →
       cellAt (board s) (mkPos r c) = Some EMPTY ∧
       cellAt (board s') (mkPos r c) = Some (currentPlayer s)) ∧
    (flippable = [] → s' = s) ∧
    (cellAt (board s) (mkPos r c) ≠ Some EMPTY → flippable = []).
Proof.
  intros (Hwf & Hp & _) Hin. pose proof Hin as [Hr _]%inRange_spec.
  exists (flipsOf (board s) r c (currentPlayer s)).
  exists (snd (handleMove r c s)).
  split; [by apply getFlippablePieces_wf|].
  rewrite handleMove_wf by done.
  destruct (decide (flipsOf _ _ _ _ = [])) as [He|Hne]; cbn [snd].
  - by repeat split.
  - rewrite rendered_board. simpl.
    repeat split; try done.
    + intros _. by apply boardAfterMove_changed.
    + by apply flipsOf_nonempty in Hne as [_ ?].
    + rewrite boardAfterMove_cell by done. rewrite decide_True; [done|by left].
    + by apply flipsOf_occupied.
Qed.

Lemma handleMove_accepts_iff_flippable_witness :
  wf_state newGameState ∧ inRange 3 3 = true ∧
  ∃ flippable s',
    getFlippablePieces 3 3 (currentPlayer newGameState) newGameState =
      (Ok flippable, newGameState) ∧
    handleMove 3 3 newGameState = (Ok tt, s') ∧
    (board s' ≠ board newGameState ↔ flippable ≠ []) ∧
    (flippable ≠ [] →
       cellAt (board newGameState) (mkPos 3 3) = Some EMPTY ∧
       cellAt (board s') (mkPos 3 3) = Some (currentPlayer newGameState)) ∧
    (flippable = [] → s' = newGameState) ∧
    (cellAt (board newGameState) (mkPos 3 3) ≠ Some EMPTY → flippable = []).
Proof.
  split; [apply newGameState_wf|]. split; [reflexivity|].
  apply (handleMove_accepts_iff_flippable newGameState 3 3).
  - apply newGameState_wf.
  - reflexivity.
Defined.

(** C9.  For every well-formed board, player and in-range EMPTY cell
    [(r, c)], every coordinate returned by [getFlippablePieces] is on the
    board, holds the opponent's colour (so neither EMPTY nor the player's
    colour), differs from [(r, c)], and no coordinate occurs twice. *)
Theorem getFlippablePieces_cells s r c player :
  wf_board (board s) → is_player player →
  inRange r c = true → cellAt (board s) (mkPos r c) = Some EMPTY →
  ∃ flippable,
    getFlippablePieces r c player s = (Ok flippable, s) ∧
    Forall (λ q, onBoard q = true ∧
                 cellAt (board s) q = Some (opponentOf player) ∧
                 cellAt (board s) q ≠ Some EMPTY ∧
                 cellAt (board s) q ≠ Some player ∧
                 q ≠ mkPos r c) flippable ∧
    NoDup flippable.
Proof.
  intros Hwf Hp Hin Hempty. pose proof Hin as [Hr _]%inRange_spec.
  exists (flipsOf (board s) r c player).
  split; [by apply getFlippablePieces_wf|].
  split; [|apply flipsOf_NoDup].
  apply Forall_forall. intros q [Hon Hq]%elem_of_flipsOf.
  rewrite (opponentOf_opposite _ Hp), Hq.
  repeat split; try done.
  - intros [=He]. by apply (opposite_not_EMPTY _ Hp).
  - intros [=He]. destruct Hp as [-> | ->]; done.
  - intros ->. rewrite Hempty in Hq. injection Hq as He.
    by apply (opposite_not_EMPTY _ Hp).
Qed.

Lemma getFlippablePieces_cells_witness :
  wf_board (board newGameState) ∧ is_player BLACK ∧
  inRange 2 3 = true ∧ cellAt (board newGameState) (mkPos 2 3) = Some EMPTY ∧
  ∃ flippable,
    getFlippablePieces 2 3 BLACK newGameState = (Ok flippable, newGameState) ∧
    Forall (λ q, onBoard q = true ∧
                 cellAt (board newGameState) q = Some (opponentOf BLACK) ∧
                 cellAt (board newGameState) q ≠ Some EMPTY ∧
                 cellAt (board newGameState) q ≠ Some BLACK ∧
                 q ≠ mkPos 2 3) flippable ∧
    NoDup flippable.
Proof.
  split; [apply newGameState_wf|].
  split; [left; reflexivity|].
  split; [reflexivity|]. split; [reflexivity|].
  apply (getFlippablePieces_cells newGameState 2 3 BLACK).
  - apply newGameState_wf.
  - left; reflexivity.
  - reflexivity.
  - reflexivity.
Defined.

(** C10.  [getFlippablePieces] and [getValidMoves] are read-only: whatever
    the state and the arguments, they hand back the state (board and current
    player included) they were given.  On a well-formed board
    [getValidMoves] returns exactly the on-board cells whose flip list is
    non-empty, in row-major order and without duplicates. *)
Theorem queries_are_read_only s r c player :
  snd (getFlippablePieces r c player s) = s ∧
  snd (getValidMoves player s) = s ∧
  (wf_board (board s) → is_player player →
   ∃ moves,
     getValidMoves player s = (Ok moves, s) ∧
     StronglySorted rowMajorLt moves ∧
     NoDup moves ∧
     ∀ p, p ∈ moves ↔
          onBoard p = true ∧
          ∃ flippable,
            getFlippablePieces (pos_r p) (pos_c p) player s = (Ok flippable, s) ∧
            flippable ≠ []).
Proof.
  split; [apply ReadOnly_getFlippablePieces|].
  split; [apply ReadOnly_getValidMoves|].
  intros Hwf Hp. exists (validMovesOf (board s) player).
  split; [by apply getValidMoves_wf|].
  split; [|split].
  - eapply sublist_StronglySorted;
      [apply validMovesOf_sublist|apply allCells_sorted].
  - eapply sublist_NoDup; [apply allCells_NoDup|apply validMovesOf_sublist].
  - intros p. rewrite elem_of_validMovesOf. split.
    + intros [Hon Hne]. split; [done|].
      apply inRange_spec in Hon as Hr. destruct Hr as [Hr _].
      eexists. split; [by apply getFlippablePieces_wf|done].
    + intros [Hon (fl & Hfl & Hne)]. split; [done|].
      apply inRange_spec in Hon as Hr. destruct Hr as [Hr _].
      rewrite getFlippablePieces_wf in Hfl by done. congruence.
Qed.

Lemma queries_are_read_only_witness :
  snd (getFlippablePieces 2 3 BLACK newGameState) = newGameState ∧
  snd (getValidMoves BLACK newGameState) = newGameState ∧
  ∃ moves,
    getValidMoves BLACK newGameState = (Ok moves, newGameState) ∧
    StronglySorted rowMajorLt moves ∧
    NoDup moves ∧
    ∀ p, p ∈ moves ↔
         onBoard p = true ∧
         ∃ flippable,
           getFlippablePieces (pos_r p) (pos_c p) BLACK newGameState =
             (Ok flippable, newGameState) ∧
           flippable ≠ [].
Proof.
  destruct (queries_are_read_only newGameState 2 3 BLACK) as (H1 & H2 & H3).
  split; [exact H1|]. split; [exact H2|].
  apply H3.
  - apply newGameState_wf.
  - left; reflexivity.
Defined.

(** C4.  Evaluation of the script at a row index outside [0, 8): both
    [getFlippablePieces] and [handleMove] raise a [TypeError] (the test
    [board[r][c] !== EMPTY] is evaluated before the range tests), whereas a
    column index outside the range yields the empty list. *)
Theorem row_out_of_range_raises :
  getFlippablePieces 8 0 BLACK newGameState = (TypeError, newGameState) ∧
  getFlippablePieces (-1) 0 BLACK newGameState = (TypeError, newGameState) ∧
  handleMove 8 0 newGameState = (TypeError, newGameState) ∧
  getFlippablePieces 0 8 BLACK newGameState = (Ok [], newGameState) ∧
  handleMove 0 8 newGameState = (Ok tt, newGameState).
Proof. by vm_compute. Qed.

(** C6.  From any state, [initializeGame] leaves the board with WHITE at
    (3,3) and (4,4), BLACK at (3,4) and (4,3) and the 60 other cells EMPTY,
    and BLACK as current player; the valid moves of BLACK in that state are
    exactly (2,3), (3,2), (4,5) and (5,4). *)
Theorem initializeGame_state s :
  ∃ s',
    initializeGame s = (Ok tt, s') ∧
    board s' =
      [ [EMPTY; EMPTY; EMPTY; EMPTY; EMPTY; EMPTY; EMPTY; EMPTY];
        [EMPTY; EMPTY; EMPTY; EMPTY; EMPTY; EMPTY; EMPTY; EMPTY];
        [EMPTY; EMPTY; EMPTY; EMPTY; EMPTY; EMPTY; EMPTY; EMPTY];
        [EMPTY; EMPTY; EMPTY; WHITE; BLACK; EMPTY; EMPTY; EMPTY];
        [EMPTY; EMPTY; EMPTY; BLACK; WHITE; EMPTY; EMPTY; EMPTY];
        [EMPTY; EMPTY; EMPTY; EMPTY; EMPTY; EMPTY; EMPTY; EMPTY];
        [EMPTY; EMPTY; EMPTY; EMPTY; EMPTY; EMPTY; EMPTY; EMPTY];
        [EMPTY; EMPTY; EMPTY; EMPTY; EMPTY; EMPTY; EMPTY; EMPTY] ] ∧
    cellAt (board s') (mkPos 3 3) = Some WHITE ∧
    cellAt (board s') (mkPos 4 4) = Some WHITE ∧
    cellAt (board s') (mkPos 3 4) = Some BLACK ∧
    cellAt (board s') (mkPos 4 3) = Some BLACK ∧
    countOf EMPTY (board s') = 60%nat ∧
    currentPlayer s' = BLACK ∧
    getValidMoves BLACK s' =
      (Ok [mkPos 2 3; mkPos 3 2; mkPos 4 5; mkPos 5 4], s').
Proof.
  destruct s as [b p m sc ts].
  eexists. split; [by vm_compute|].
  by vm_compute.
Qed.

(** C8.  [endGame] announces the winner from the two counts alone: BLACK
    when there are more BLACK cells than WHITE cells on the board, WHITE when
    there are more WHITE cells, a draw otherwise. *)
Theorem endGame_winner s :
  wf_board (board s) →
  ∃ s',
    endGame s = (Ok tt, s') ∧
    board s' = board s ∧ currentPlayer s' = currentPlayer s ∧
    let blackCount := countOf BLACK (board s) in
    let whiteCount := countOf WHITE (board s) in
    countDiscs s = (Ok (blackCount, whiteCount), s) ∧
    ((whiteCount < blackCount)%nat →
       messageText s' = MsgBlackWins blackCount whiteCount) ∧
    ((blackCount < whiteCount)%nat →
       messageText s' = MsgWhiteWins whiteCount blackCount) ∧
    (blackCount = whiteCount →
       messageText s' = MsgDraw blackCount whiteCount).
Proof.
  intros Hwf. eexists. split; [by apply endGame_wf|].
  simpl. split; [done|]. split; [done|].
  split; [by apply countDiscs_wf|].
  unfold resultMessage.
  repeat split; intros; repeat case_decide; done || lia.
Qed.

Lemma endGame_winner_witness :
  wf_board (board finishedPosition) ∧
  ∃ s',
    endGame finishedPosition = (Ok tt, s') ∧
    board s' = board finishedPosition ∧
    currentPlayer s' = currentPlayer finishedPosition ∧
    let blackCount := countOf BLACK (board finishedPosition) in
    let whiteCount := countOf WHITE (board finishedPosition) in
    countDiscs finishedPosition = (Ok (blackCount, whiteCount), finishedPosition) ∧
    ((whiteCount < blackCount)%nat →
       messageText s' = MsgBlackWins blackCount whiteCount) ∧
    ((blackCount < whiteCount)%nat →
       messageText s' = MsgWhiteWins whiteCount blackCount) ∧
    (blackCount = whiteCount →
       messageText s' = MsgDraw blackCount whiteCount).
Proof.
  split; [apply finishedPosition_wf|].
  apply (endGame_winner finishedPosition). apply finishedPosition_wf.
Defined.

(** C3.  After a successful [handleMove] by player P, with O the other
    player: when O has a valid move, O is the current player and the message
    announces O's turn; when O has none but P has one, the message announces
    that O passes, a timer is queued, no click can place a disc for O in the
    meantime, and (in every state of a game, where no other timer is
    pending) once the timer has run P is the current player again with the
    board untouched and the message announcing P's turn. *)
Theorem handleMove_turn_progression s r c s' :
  wf_state s →
  handleMove r c s = (Ok tt, s') → board s' ≠ board s →
  let P := currentPlayer s in
  let O := opponentOf P in
  ∃ movesO movesP,
    getValidMoves O s' = (Ok movesO, s') ∧
    getValidMoves P s' = (Ok movesP, s') ∧
    (movesO ≠ [] →
       currentPlayer s' = O ∧ messageText s' = MsgTurn (colorName O) ∧
       timers s' = timers s) ∧
    (movesO = [] → movesP ≠ [] →
       messageText s' = MsgPass (colorName O) (colorName P) ∧
       currentPlayer s' = O ∧
       timers s' = timers s ++ [P] ∧
       (∀ r' c', snd (handleMove r' c' s') = s') ∧
       (game_inv s →
        ∃ s'',
          fireTimer s' = (Ok tt, s'') ∧ board s'' = board s' ∧
          currentPlayer s'' = P ∧ messageText s'' = MsgTurn (colorName P) ∧
          timers s'' = [])).
Proof.
  intros Hs Hmove Hchanged. cbn zeta. pose proof Hs as (Hwf & Hp & Hts).
  accepted_move Hmove Hr Hne. subst s'.
  set (P := currentPlayer s) in *. set (O := opponentOf P) in *.
  set (b' := boardAfterMove (board s) r c P) in *.
  set (s1 := withPlayer O (withBoard b' s)) in *.
  assert (Hwf' : wf_board b') by (by apply boardAfterMove_wf).
  assert (Hs1 : wf_state s1).
  { split; [|split]; simpl; [done|apply opponentOf_is_player|done]. }
  pose proof (rendered_wf _ Hs1) as Hs'.
  assert (HPP : opponentOf O = P) by (by apply opponentOf_involutive).
  exists (validMovesOf b' O), (validMovesOf b' P).
  split.
  { rewrite getValidMoves_wf; rewrite ?rendered_board;
      [done|done|apply opponentOf_is_player]. }
  split.
  { rewrite getValidMoves_wf; rewrite ?rendered_board; done. }
  split.
  - intros HO. unfold rendered. cbn [board currentPlayer s1 withPlayer withBoard].
    fold O. by rewrite decide_False by done.
  - intros HO HPm.
    assert (Hr' : rendered s1 =
              mkState b' O (MsgPass (colorName O) (colorName P))
                      (scoreOf b') (timers s ++ [P])).
    { unfold rendered. cbn [board currentPlayer s1 withPlayer withBoard timers].
      fold O. rewrite HPP. rewrite decide_True by done.
      by rewrite decide_False by done. }
    rewrite Hr' in *. cbn [messageText currentPlayer timers board].
    split; [done|]. split; [done|]. split; [done|]. split.
    + intros r' c'. rewrite handleMove_snd by done.
      cbn [board currentPlayer]. rewrite decide_True; [done|].
      by apply validMovesOf_nil.
    + intros Hinv. rewrite fireTimer_wf by done.
      rewrite (game_inv_move_no_timer s r c Hinv Hne).
      cbn [timers app board messageText scoreText].
      eexists. split; [done|].
      unfold rendered. cbn [board currentPlayer timers].
      by rewrite decide_False by done.
Qed.

Lemma handleMove_turn_progression_witness :
  wf_state passPosition ∧
  ∃ s',
    handleMove 0 0 passPosition = (Ok tt, s') ∧
    board s' ≠ board passPosition ∧
    ∃ movesO movesP,
      getValidMoves WHITE s' = (Ok movesO, s') ∧
      getValidMoves BLACK s' = (Ok movesP, s') ∧
      (movesO ≠ [] →
         currentPlayer s' = WHITE ∧ messageText s' = MsgTurn Shiro ∧
         timers s' = []) ∧
      (movesO = [] → movesP ≠ [] →
         messageText s' = MsgPass Shiro Kuro ∧
         currentPlayer s' = WHITE ∧
         timers s' = [BLACK] ∧
         (∀ r' c', snd (handleMove r' c' s') = s') ∧
         (game_inv passPosition →
          ∃ s'',
            fireTimer s' = (Ok tt, s'') ∧ board s'' = board s' ∧
            currentPlayer s'' = BLACK ∧ messageText s'' = MsgTurn Kuro ∧
            timers s'' = [])).
Proof.
  split; [apply passPosition_wf|].
  exists (snd (handleMove 0 0 passPosition)).
  split; [reflexivity|].
  assert (Hchanged : board (snd (handleMove 0 0 passPosition))
                     ≠ board passPosition) by (vm_compute; discriminate).
  split; [exact Hchanged|].
  apply (handleMove_turn_progression passPosition 0 0
           (snd (handleMove 0 0 passPosition))).
  - apply passPosition_wf.
  - reflexivity.
  - exact Hchanged.
Defined.

(** The pass branch of C3 is met: in [passPosition] the move of BLACK at
    (0, 0) leaves WHITE without a move and BLACK with one. *)
Example passPosition_passes :
  let s' := run passPosition [Click 0 0] in
  getValidMoves WHITE s' = (Ok [], s') ∧
  getValidMoves BLACK s' = (Ok [mkPos 7 0], s') ∧
  messageText s' = MsgPass Shiro Kuro ∧ currentPlayer s' = WHITE ∧
  timers s' = [BLACK] ∧
  let s'' := run s' [TimerExpired] in
  currentPlayer s'' = BLACK ∧ messageText s'' = MsgTurn Kuro ∧
  board s'' = board s' ∧ timers s'' = [].
Proof. by vm_compute. Qed.

(** C5.  A successful [handleMove] raises the number of discs counted by
    the script by exactly one, every flipped cell going from the opponent's
    colour to the mover's; and the count never goes down along any sequence
    of clicks and timer expiries. *)
Theorem handleMove_adds_one_disc s :
  wf_state s →
  (∀ r c s',
     handleMove r c s = (Ok tt, s') → board s' ≠ board s →
     ∃ counts counts' flippable,
       countDiscs s = (Ok counts, s) ∧
       countDiscs s' = (Ok counts', s') ∧
       (fst counts' + snd counts' = S (fst counts + snd counts))%nat ∧
       scoreText s' = counts' ∧
       getFlippablePieces r c (currentPlayer s) s = (Ok flippable, s) ∧
       ∀ q, q ∈ flippable →
            cellAt (board s) q = Some (opponentOf (currentPlayer s)) ∧
            cellAt (board s') q = Some (currentPlayer s)) ∧
  (∀ es,
     ∃ counts counts',
       countDiscs s = (Ok counts, s) ∧
       countDiscs (run s es) = (Ok counts', run s es) ∧
       (fst counts + snd counts ≤ fst counts' + snd counts')%nat).
Proof.
  intros Hs. pose proof Hs as (Hwf & Hp & Hts). split.
  - intros r c s' Hmove Hchanged.
    accepted_move Hmove Hr Hne. subst s'.
    pose proof (boardAfterMove_wf _ r c (currentPlayer s) Hwf) as Hwf'.
    exists (scoreOf (board s)),
           (scoreOf (boardAfterMove (board s) r c (currentPlayer s))),
           (flipsOf (board s) r c (currentPlayer s)).
    split; [by apply countDiscs_wf|].
    split; [rewrite countDiscs_wf; rewrite rendered_board; done|].
    split; [by apply (boardAfterMove_discs _ r c _ Hwf Hp)|].
    split; [by rewrite rendered_scoreText|].
    split; [by apply getFlippablePieces_wf|].
    intros q Hq. rewrite rendered_board. cbn [board withPlayer withBoard].
    split.
    + rewrite (opponentOf_opposite _ Hp). by apply elem_of_flipsOf in Hq as [_ ?].
    + rewrite boardAfterMove_cell by done. rewrite decide_True; [done|by right].
  - intros es. pose proof (run_wf s es Hs) as (Hwf' & _).
    exists (scoreOf (board s)), (scoreOf (board (run s es))).
    split; [by apply countDiscs_wf|].
    split; [by apply countDiscs_wf|].
    apply (run_discs s es Hs).
Qed.

Lemma handleMove_adds_one_disc_witness :
  wf_state newGameState ∧
  discs (board (run newGameState [Click 2 3])) = 5%nat ∧
  (∀ r c s',
     handleMove r c newGameState = (Ok tt, s') →
     board s' ≠ board newGameState →
     ∃ counts counts' flippable,
       countDiscs newGameState = (Ok counts, newGameState) ∧
       countDiscs s' = (Ok counts', s') ∧
       (fst counts' + snd counts' = S (fst counts + snd counts))%nat ∧
       scoreText s' = counts' ∧
       getFlippablePieces r c (currentPlayer newGameState) newGameState =
         (Ok flippable, newGameState) ∧
       ∀ q, q ∈ flippable →
            cellAt (board newGameState) q =
              Some (opponentOf (currentPlayer newGameState)) ∧
            cellAt (board s') q = Some (currentPlayer newGameState)) ∧
  (∀ es,
     ∃ counts counts',
       countDiscs newGameState = (Ok counts, newGameState) ∧
       countDiscs (run newGameState es) = (Ok counts', run newGameState es) ∧
       (fst counts + snd counts ≤ fst counts' + snd counts')%nat).
Proof.
  split; [apply newGameState_wf|]. split; [reflexivity|].
  apply (handleMove_adds_one_disc newGameState). apply newGameState_wf.
Defined.

(** C7.  When neither BLACK nor WHITE has a valid move, [renderBoard]
    announces the end of the game and changes neither the board, the current
    player nor the timers; every [handleMove(r, c)] leaves the whole state
    as it is (returning normally when [(r, c)] is in range); and in every
    state of a game, where no timer is then pending, no sequence of events
    changes the state any further. *)
Theorem terminal_is_absorbing s :
  wf_state s →
  getValidMoves BLACK s = (Ok [], s) → getValidMoves WHITE s = (Ok [], s) →
  (∃ s',
     renderBoard s = (Ok tt, s') ∧
     messageText s' = resultMessage (countOf BLACK (board s))
                                    (countOf WHITE (board s)) ∧
     board s' = board s ∧ currentPlayer s' = currentPlayer s ∧
     timers s' = timers s) ∧
  (∀ s0 r c,
     wf_state s0 → handleMove r c s0 = (Ok tt, s) → board s ≠ board s0 →
     messageText s = resultMessage (countOf BLACK (board s))
                                   (countOf WHITE (board s)) ∧
     currentPlayer s = opponentOf (currentPlayer s0) ∧
     timers s = timers s0) ∧
  (∀ r c, inRange r c = true → handleMove r c s = (Ok tt, s)) ∧
  (∀ r c, snd (handleMove r c s) = s) ∧
  (game_inv s → ∀ es, run s es = s).
Proof.
  intros Hs HB HW. pose proof Hs as (Hwf & Hp & Hts).
  rewrite getValidMoves_wf in HB by (done || by left).
  rewrite getValidMoves_wf in HW by (done || by right).
  injection HB as HB. injection HW as HW.
  assert (Hall : ∀ p, is_player p → validMovesOf (board s) p = [])
    by (by intros p [-> | ->]).
  assert (Hclick : ∀ r c, snd (handleMove r c s) = s).
  { intros r c. rewrite handleMove_snd by done.
    rewrite decide_True; [done|]. by apply validMovesOf_nil, Hall. }
  split; [|split; [|split; [|split]]].
  - exists (rendered s). split; [by apply renderBoard_wf|].
    unfold rendered.
    rewrite !decide_True by auto using opponentOf_is_player. done.
  - intros s0 r c (Hwf0 & Hp0 & Hts0) Hmove Hchanged.
    accepted_move Hmove Hr Hne.
    set (s1 := withPlayer (opponentOf (currentPlayer s0))
                 (withBoard (boardAfterMove (board s0) r c (currentPlayer s0))
                    s0)) in *.
    assert (Hall1 : ∀ p, is_player p → validMovesOf (board s1) p = []).
    { intros p Hpp. rewrite <- (rendered_board s1), Hmove. by apply Hall. }
    assert (Hp1 : is_player (currentPlayer s1)) by apply opponentOf_is_player.
    rewrite <- Hmove. unfold rendered.
    rewrite !decide_True by auto using opponentOf_is_player.
    done.
  - intros r c [Hr _]%inRange_spec. rewrite handleMove_wf by done.
    rewrite decide_True; [done|]. by apply validMovesOf_nil, Hall.
  - exact Hclick.
  - intros Hinv es.
    pose proof (game_inv_terminal_no_timer s Hinv HB HW) as Hnone.
    induction es as [|e es IH]; [done|].
    simpl. replace (dispatch s e) with s; [done|].
    destruct e as [r c|]; unfold dispatch, handler.
    + by rewrite Hclick.
    + rewrite fireTimer_wf by done. by rewrite Hnone.
Qed.

Lemma terminal_is_absorbing_witness :
  wf_state finishedPosition ∧
  getValidMoves BLACK finishedPosition = (Ok [], finishedPosition) ∧
  getValidMoves WHITE finishedPosition = (Ok [], finishedPosition) ∧
  (∃ s',
     renderBoard finishedPosition = (Ok tt, s') ∧
     messageText s' = resultMessage (countOf BLACK (board finishedPosition))
                                    (countOf WHITE (board finishedPosition)) ∧
     board s' = board finishedPosition ∧
     currentPlayer s' = currentPlayer finishedPosition ∧
     timers s' = timers finishedPosition) ∧
  (∀ s0 r c,
     wf_state s0 → handleMove r c s0 = (Ok tt, finishedPosition) →
     board finishedPosition ≠ board s0 →
     messageText finishedPosition =
       resultMessage (countOf BLACK (board finishedPosition))
                     (countOf WHITE (board finishedPosition)) ∧
     currentPlayer finishedPosition = opponentOf (currentPlayer s0) ∧
     timers finishedPosition = timers s0) ∧
  (∀ r c, inRange r c = true →
          handleMove r c finishedPosition = (Ok tt, finishedPosition)) ∧
  (∀ r c, snd (handleMove r c finishedPosition) = finishedPosition) ∧
  (game_inv finishedPosition →
   ∀ es, run finishedPosition es = finishedPosition).
Proof.
  split; [apply finishedPosition_wf|].
  split; [reflexivity|]. split; [reflexivity|].
  apply (terminal_is_absorbing finishedPosition).
  - apply finishedPosition_wf.
  - reflexivity.
  - reflexivity.
Defined.

(** A move that ends the game: after BLACK plays (0, 0) in
    [lastMovePosition] nobody can move, the end of the game is announced and
    no timer is queued. *)
Example lastMovePosition_ends :
  let s' := run lastMovePosition [Click 0 0] in
  getValidMoves BLACK s' = (Ok [], s') ∧
  getValidMoves WHITE s' = (Ok [], s') ∧
  messageText s' = MsgBlackWins 8 0 ∧ currentPlayer s' = WHITE ∧
  timers s' = [] ∧
  run s' [Click 0 1; Click 1 1; Click 8 0; TimerExpired] = s'.
Proof. by vm_compute. Qed.

(** * Further properties of the script *)

(** ** Coordinates outside the board *)

(** X1.  On every well-formed board a row index outside [0, 8) makes
    [getFlippablePieces] and [handleMove] raise a [TypeError], whatever the
    column and the player; nothing is changed by the failed call. *)
Theorem row_outside_board_raises s r c player :
  wf_board (board s) → ¬ (0 ≤ r < BOARD_SIZE) →
  getFlippablePieces r c player s = (TypeError, s) ∧
  handleMove r c s = (TypeError, s) ∧
  dispatch s (Click r c) = s.
Proof.
  intros Hwf Hr.
  split; [by apply getFlippablePieces_no_row|].
  split; [by apply handleMove_no_row|].
  unfold dispatch, handler. by rewrite handleMove_no_row.
Qed.

Lemma row_outside_board_raises_witness :
  wf_board (board newGameState) ∧ ¬ (0 ≤ 8 < BOARD_SIZE) ∧
  getFlippablePieces 8 3 WHITE newGameState = (TypeError, newGameState) ∧
  handleMove 8 3 newGameState = (TypeError, newGameState) ∧
  dispatch newGameState (Click 8 3) = newGameState.
Proof.
  split; [apply newGameState_wf|].
  split; [unfold BOARD_SIZE; lia|].
  apply (row_outside_board_raises newGameState 8 3 WHITE).
  - apply newGameState_wf.
  - unfold BOARD_SIZE; lia.
Defined.

(** X2.  With the row inside the board and the column outside it,
    [board[r][c]] is [undefined]: [getFlippablePieces] returns the empty list
    for every player and [handleMove] returns without changing anything. *)
Theorem column_outside_board_rejected s r c player :
  wf_board (board s) → 0 ≤ r < BOARD_SIZE → ¬ (0 ≤ c < BOARD_SIZE) →
  getFlippablePieces r c player s = (Ok [], s) ∧
  handleMove r c s = (Ok tt, s).
Proof.
  intros Hwf Hr Hc.
  assert (Hfl : ∀ p, getFlippablePieces r c p s = (Ok [], s)).
  { intros p. unfold getFlippablePieces.
    rewrite (bind_ok _ _ _ _ _ (readCell_wf s r c Hwf Hr)).
    by rewrite wf_board_no_col. }
  split; [apply Hfl|].
  unfold handleMove.
  rewrite (bind_ok _ _ s (currentPlayer s) s) by done.
  rewrite (bind_ok _ _ _ _ _ (Hfl _)).
  by rewrite decide_False by (simpl; lia).
Qed.

Lemma column_outside_board_rejected_witness :
  wf_board (board newGameState) ∧ 0 ≤ 3 < BOARD_SIZE ∧
  ¬ (0 ≤ -1 < BOARD_SIZE) ∧
  getFlippablePieces 3 (-1) BLACK newGameState = (Ok [], newGameState) ∧
  handleMove 3 (-1) newGameState = (Ok tt, newGameState).
Proof.
  split; [apply newGameState_wf|].
  split; [unfold BOARD_SIZE; lia|].
  split; [unfold BOARD_SIZE; lia|].
  apply (column_outside_board_rejected newGameState 3 (-1) BLACK).
  - apply newGameState_wf.
  - unfold BOARD_SIZE; lia.
  - unfold BOARD_SIZE; lia.
Defined.

(** ** The score *)

Lemma count_total (l : list Cell) :
  (count BLACK l + count WHITE l + count EMPTY l = length l)%nat.
Proof.
  induction l as [|x l IH]; [done|].
  rewrite !count_cons. simpl. destruct x; repeat case_decide; try done; lia.
Qed.

Lemma wf_board_cells b : wf_board b → length (concat b) = 64%nat.
Proof.
  intros [Hlen Hrows].
  assert (Hsum : ∀ rows : list (list Cell),
            Forall (λ row, length row = Z.to_nat BOARD_SIZE) rows →
            length (concat rows) = (length rows * 8)%nat).
  { induction 1 as [|row rows Hrow _ IH]; [done|].
    rewrite concat_cons, length_app, IH, Hrow. by simpl. }
  rewrite Hsum, Hlen by done. done.
Qed.

Lemma countOf_total b :
  wf_board b →
  (countOf BLACK b + countOf WHITE b + countOf EMPTY b = 64)%nat.
Proof.
  intros Hwf. unfold countOf. by rewrite count_total, wf_board_cells.
Qed.

(** X3.  [updateScore] writes to the score element the number of BLACK cells
    and the number of WHITE cells of the board and changes nothing else;
    together with the EMPTY cells the two numbers add up to 64. *)
Theorem updateScore_shows_counts s :
  wf_board (board s) →
  ∃ s',
    updateScore s = (Ok tt, s') ∧
    scoreText s' = (countOf BLACK (board s), countOf WHITE (board s)) ∧
    board s' = board s ∧ currentPlayer s' = currentPlayer s ∧
    messageText s' = messageText s ∧ timers s' = timers s ∧
    (fst (scoreText s') + snd (scoreText s') + countOf EMPTY (board s)
     = 64)%nat.
Proof.
  intros Hwf. eexists. split; [by apply updateScore_wf|].
  simpl. repeat split; try done. by apply countOf_total.
Qed.

Lemma updateScore_shows_counts_witness :
  wf_board (board passPosition) ∧
  ∃ s',
    updateScore passPosition = (Ok tt, s') ∧
    scoreText s' = (countOf BLACK (board passPosition),
                    countOf WHITE (board passPosition)) ∧
    board s' = board passPosition ∧
    currentPlayer s' = currentPlayer passPosition ∧
    messageText s' = messageText passPosition ∧
    timers s' = timers passPosition ∧
    (fst (scoreText s') + snd (scoreText s')
     + countOf EMPTY (board passPosition) = 64)%nat.
Proof.
  split; [apply passPosition_wf|].
  apply (updateScore_shows_counts passPosition). apply passPosition_wf.
Defined.

(** ** What a move does to the board *)

Lemma foldl_putCell_count (l : list Pos) b player :
  wf_board b → is_player player → NoDup l →
  Forall (λ q, onBoard q = true ∧ cellAt b q = Some (opposite player)) l →
  let b' := foldl (λ b' pos, putCell b' pos player) b l in
  countOf player b' = (countOf player b + length l)%nat ∧
  (countOf (opposite player) b' + length l)%nat = countOf (opposite player) b ∧
  countOf EMPTY b' = countOf EMPTY b.
Proof.
  intros Hwf Hp Hnd. revert b Hwf.
  induction Hnd as [|p l Hnotin Hnd IH]; intros b Hwf Hall; [by simpl|].
  apply Forall_cons in Hall as [[Hon Hcell] Hall].
  cbn zeta. simpl.
  destruct (IH (putCell b p player)) as (IH1 & IH2 & IH3).
  { by apply putCell_wf. }
  { apply Forall_forall. intros q Hq.
    pose proof (proj1 (Forall_forall _ _) Hall q Hq) as [Hq1 Hq2].
    split; [done|]. rewrite putCell_other; [done|]. by intros ->. }
  cbn zeta in IH1, IH2, IH3.
  pose proof (putCell_count player b p _ player Hcell) as H1.
  pose proof (putCell_count (opposite player) b p _ player Hcell) as H2.
  pose proof (putCell_count EMPTY b p _ player Hcell) as H3.
  clear IH.
  destruct Hp as [-> | ->]; cbn [opposite] in *;
    repeat case_decide; simplify_eq; (split; [|split]); lia.
Qed.

Lemma flipsOf_not_origin b r c player q :
  is_player player → q ∈ flipsOf b r c player → q ≠ mkPos r c.
Proof.
  intros Hp Hq ->.
  assert (Hne : flipsOf b r c player ≠ []) by (by intros He; rewrite He in Hq;
                                                 apply elem_of_nil in Hq).
  apply flipsOf_nonempty in Hne as [_ Hempty].
  apply elem_of_flipsOf in Hq as [_ Hq]. rewrite Hempty in Hq.
  injection Hq as Hq. by apply (opposite_not_EMPTY _ Hp).
Qed.

Lemma boardAfterMove_counts b r c player :
  wf_board b → is_player player → flipsOf b r c player ≠ [] →
  let n := length (flipsOf b r c player) in
  let b' := boardAfterMove b r c player in
  countOf player b' = (countOf player b + 1 + n)%nat ∧
  (countOf (opposite player) b' + n)%nat = countOf (opposite player) b ∧
  (countOf EMPTY b' + 1)%nat = countOf EMPTY b.
Proof.
  intros Hwf Hp Hne. pose proof Hne as [Hin Hempty]%flipsOf_nonempty.
  cbn zeta. unfold boardAfterMove.
  destruct (foldl_putCell_count (flipsOf b r c player)
              (putCell b (mkPos r c) player) player) as (H1 & H2 & H3).
  - by apply putCell_wf.
  - done.
  - apply flipsOf_NoDup.
  - apply Forall_forall. intros q Hq.
    pose proof (flipsOf_not_origin _ _ _ _ _ Hp Hq) as Hqne.
    apply elem_of_flipsOf in Hq as [Hon Hq]. split; [done|].
    rewrite putCell_other; [done|congruence].
  - cbn zeta in H1, H2, H3.
    pose proof (putCell_count player b _ _ player Hempty) as C1.
    pose proof (putCell_count (opposite player) b _ _ player Hempty) as C2.
    pose proof (putCell_count EMPTY b _ _ player Hempty) as C3.
    destruct Hp as [-> | ->]; cbn [opposite] in *;
      repeat case_decide; simplify_eq; (split; [|split]); lia.
Qed.

(** X4.  An accepted move sets the chosen cell and every cell of the flip
    list to the mover's colour and leaves every other cell of the board as it
    was; the board keeps its 8 by 8 shape. *)
Theorem handleMove_changes_only_flipped s r c s' :
  wf_state s → handleMove r c s = (Ok tt, s') → board s' ≠ board s →
  ∃ flippable,
    getFlippablePieces r c (currentPlayer s) s = (Ok flippable, s) ∧
    wf_board (board s') ∧
    ∀ q, cellAt (board s') q =
         if decide (q = mkPos r c ∨ q ∈ flippable)
         then Some (currentPlayer s) else cellAt (board s) q.
Proof.
  intros (Hwf & Hp & Hts) Hmove Hchanged.
  accepted_move Hmove Hr Hne. subst s'.
  exists (flipsOf (board s) r c (currentPlayer s)).
  split; [by apply getFlippablePieces_wf|].
  rewrite rendered_board. cbn [board withPlayer withBoard].
  split; [by apply boardAfterMove_wf|].
  intros q. by apply boardAfterMove_cell.
Qed.

Lemma handleMove_changes_only_flipped_witness :
  wf_state newGameState ∧
  ∃ s',
    handleMove 2 3 newGameState = (Ok tt, s') ∧
    board s' ≠ board newGameState ∧
    ∃ flippable,
      getFlippablePieces 2 3 (currentPlayer newGameState) newGameState =
        (Ok flippable, newGameState) ∧
      wf_board (board s') ∧
      ∀ q, cellAt (board s') q =
           if decide (q = mkPos 2 3 ∨ q ∈ flippable)
           then Some (currentPlayer newGameState)
           else cellAt (board newGameState) q.
Proof.
  split; [apply newGameState_wf|].
  exists (snd (handleMove 2 3 newGameState)).
  split; [reflexivity|].
  assert (Hchanged : board (snd (handleMove 2 3 newGameState))
                     ≠ board newGameState) by (vm_compute; discriminate).
  split; [exact Hchanged|].
  apply (handleMove_changes_only_flipped newGameState 2 3
           (snd (handleMove 2 3 newGameState))).
  - apply newGameState_wf.
  - reflexivity.
  - exact Hchanged.
Defined.

(** X5.  An accepted move that flips [n] discs gives the mover [n + 1] more
    cells, takes [n] cells from the opponent and fills one EMPTY cell; the
    score element then shows the new counts. *)
Theorem handleMove_score_change s r c s' :
  wf_state s → handleMove r c s = (Ok tt, s') → board s' ≠ board s →
  let P := currentPlayer s in
  let O := opponentOf P in
  ∃ flippable,
    getFlippablePieces r c P s = (Ok flippable, s) ∧
    (0 < length flippable)%nat ∧
    countOf P (board s') = (countOf P (board s) + 1 + length flippable)%nat ∧
    (countOf O (board s') + length flippable)%nat = countOf O (board s) ∧
    (countOf EMPTY (board s') + 1)%nat = countOf EMPTY (board s) ∧
    scoreText s' = (countOf BLACK (board s'), countOf WHITE (board s')).
Proof.
  intros (Hwf & Hp & Hts) Hmove Hchanged. cbn zeta.
  accepted_move Hmove Hr Hne. subst s'.
  exists (flipsOf (board s) r c (currentPlayer s)).
  split; [by apply getFlippablePieces_wf|].
  split; [destruct (flipsOf _ _ _ _); [done|simpl; lia]|].
  rewrite rendered_scoreText, rendered_board.
  cbn [board withPlayer withBoard].
  rewrite (opponentOf_opposite _ Hp).
  destruct (boardAfterMove_counts _ r c _ Hwf Hp Hne) as (H1 & H2 & H3).
  by repeat split.
Qed.

Lemma handleMove_score_change_witness :
  wf_state newGameState ∧
  ∃ s',
    handleMove 2 3 newGameState = (Ok tt, s') ∧
    board s' ≠ board newGameState ∧
    scoreText s' = (4%nat, 1%nat) ∧
    ∃ flippable,
      getFlippablePieces 2 3 BLACK newGameState = (Ok flippable, newGameState) ∧
      (0 < length flippable)%nat ∧
      countOf BLACK (board s') =
        (countOf BLACK (board newGameState) + 1 + length flippable)%nat ∧
      (countOf WHITE (board s') + length flippable)%nat =
        countOf WHITE (board newGameState) ∧
      (countOf EMPTY (board s') + 1)%nat = countOf EMPTY (board newGameState) ∧
      scoreText s' = (countOf BLACK (board s'), countOf WHITE (board s')).
Proof.
  split; [apply newGameState_wf|].
  exists (snd (handleMove 2 3 newGameState)).
  split; [reflexivity|].
  assert (Hchanged : board (snd (handleMove 2 3 newGameState))
                     ≠ board newGameState) by (vm_compute; discriminate).
  split; [exact Hchanged|]. split; [reflexivity|].
  apply (handleMove_score_change newGameState 2 3
           (snd (handleMove 2 3 newGameState))).
  - apply newGameState_wf.
  - reflexivity.
  - exact Hchanged.
Defined.

(** X6.  The coordinates returned by [getValidMoves(currentPlayer)] are
    exactly the clicks that [handleMove] accepts: a click changes the board if
    and only if its cell is in that list. *)
Theorem valid_moves_are_the_accepted_clicks s :
  wf_state s →
  ∃ moves,
    getValidMoves (currentPlayer s) s = (Ok moves, s) ∧
    ∀ r c, mkPos r c ∈ moves ↔ board (dispatch s (Click r c)) ≠ board s.
Proof.
  intros Hs. pose proof Hs as (Hwf & Hp & Hts).
  exists (validMovesOf (board s) (currentPlayer s)).
  split; [by apply getValidMoves_wf|].
  intros r c. unfold dispatch, handler. rewrite handleMove_snd by done.
  rewrite elem_of_validMovesOf. cbn [pos_r pos_c].
  destruct (decide (flipsOf _ _ _ _ = [])) as [He|Hne].
  - split; [by intros [_ ?]|done].
  - rewrite rendered_board. cbn [board withPlayer withBoard]. split.
    + intros _. by apply boardAfterMove_changed.
    + intros _. split; [|done]. by apply flipsOf_nonempty in Hne as [? _].
Qed.

Lemma valid_moves_are_the_accepted_clicks_witness :
  wf_state newGameState ∧
  ∃ moves,
    getValidMoves (currentPlayer newGameState) newGameState =
      (Ok moves, newGameState) ∧
    ∀ r c, mkPos r c ∈ moves ↔
           board (dispatch newGameState (Click r c)) ≠ board newGameState.
Proof.
  split; [apply newGameState_wf|].
  apply (valid_moves_are_the_accepted_clicks newGameState).
  apply newGameState_wf.
Defined.

(** ** The flanking rule *)

Lemma span_spec {A} (P : A → bool) (l : list A) m y :
  l !! m = Some y → P y = false →
  (∀ j x, (j < m)%nat → l !! j = Some x → P x = true) →
  takeWhile P l = take m l ∧ dropWhile P l = drop m l.
Proof.
  revert m. induction l as [|z l IH]; intros m Hm Hy Hall; [done|].
  destruct m as [|m]; simpl in *.
  - injection Hm as ->. by rewrite Hy.
  - rewrite (Hall 0%nat z) by (done || lia).
    destruct (IH m Hm Hy) as [-> ->]; [|done].
    intros j x Hj Hx. apply (Hall (S j)); [lia|done].
Qed.

Lemma span_exists {A} (P : A → bool) (l : list A) y :
  head (dropWhile P l) = Some y →
  ∃ m, l !! m = Some y ∧ P y = false ∧
       (∀ j x, (j < m)%nat → l !! j = Some x → P x = true).
Proof.
  induction l as [|z l IH]; simpl; [done|].
  destruct (P z) eqn:Hz.
  - intros (m & Hm & Hy & Hall)%IH. exists (S m). repeat split; try done.
    intros [|j] x Hj Hx; simpl in *; [by injection Hx as <-|].
    apply (Hall j); [lia|done].
  - simpl. intros [= <-]. exists 0%nat. repeat split; try done. lia.
Qed.

Lemma takeWhile_lookup_Some {A} (P : A → bool) (l : list A) i x :
  takeWhile P l !! i = Some x → l !! i = Some x.
Proof.
  intros Hi. revert i Hi. induction l as [|z l IH]; intros i Hi; simpl in *; [done|].
  destruct (P z); [|done]. destruct i as [|i]; simpl in *; [done|auto].
Qed.

Lemma cellAt_Some_onBoard b p v :
  wf_board b → cellAt b p = Some v → onBoard p = true.
Proof.
  intros Hwf Hv. destruct p as [r c]. unfold onBoard; simpl.
  destruct (inRange r c) eqn:Hin; [done|]. apply inRange_false in Hin.
  destruct (decide (0 ≤ r < BOARD_SIZE)) as [Hr|Hr].
  - rewrite wf_board_no_col in Hv; [done|done|done|tauto].
  - unfold cellAt in Hv; simpl in Hv. by rewrite wf_board_no_row in Hv.
Qed.

Lemma ray_lookup r c d i x :
  ray r c d !! i = Some x → x = stepFrom r c d (Z.of_nat i + 1).
Proof.
  unfold ray. intros Hi%takeWhile_lookup_Some.
  rewrite list_lookup_fmap in Hi.
  destruct (seqZ 1 BOARD_SIZE !! i) as [k|] eqn:Hk; [|done].
  apply lookup_seqZ in Hk as [-> _]. injection Hi as <-. f_equal. lia.
Qed.

Lemma ray_lookup_step b r c d m :
  wf_board b → inRange r c = true → d ∈ DIRECTIONS →
  (∀ j, 1 ≤ j ≤ m → is_Some (cellAt b (stepFrom r c d j))) →
  ∀ j, 1 ≤ j ≤ m → ray r c d !! Z.to_nat (j - 1) = Some (stepFrom r c d j).
Proof.
  intros Hwf Hin Hd Hall j Hj.
  assert (Hon : ∀ i, 1 ≤ i ≤ m → onBoard (stepFrom r c d i) = true).
  { intros i Hi. destruct (Hall i Hi) as [v Hv].
    by eapply cellAt_Some_onBoard. }
  assert (j ≤ 7) as Hj7.
  { pose proof (Hon j Hj) as Hb. apply inRange_spec in Hb.
    apply inRange_spec in Hin. apply elem_of_DIRECTIONS in Hd.
    unfold stepFrom in Hb; simpl in Hb. unfold BOARD_SIZE in *. nia. }
  apply takeWhile_lookup.
  - rewrite list_lookup_fmap.
    rewrite (proj2 (lookup_seqZ 1 BOARD_SIZE _ j)); [done|].
    unfold BOARD_SIZE. lia.
  - intros i y Hi. rewrite list_lookup_fmap.
    destruct (seqZ 1 BOARD_SIZE !! i) as [k'|] eqn:Hk'; [|done].
    apply lookup_seqZ in Hk' as [-> _]. intros [= <-].
    apply Hon. lia.
Qed.

Lemma flippedInDirection_flanked b player r c d q :
  wf_board b → is_player player → inRange r c = true → d ∈ DIRECTIONS →
  q ∈ flippedInDirection b player r c d ↔
  ∃ k m, 1 ≤ k < m ∧ q = stepFrom r c d k ∧
         cellAt b (stepFrom r c d m) = Some player ∧
         ∀ j, 1 ≤ j < m → cellAt b (stepFrom r c d j) = Some (opposite player).
Proof.
  intros Hwf Hp Hin Hd. unfold flippedInDirection, runEnd, opponentRun. split.
  - destruct (head _) as [y|] eqn:Hhead; [|by intros ?%elem_of_nil].
    destruct (holds b player y) eqn:Hy; [|by intros ?%elem_of_nil].
    apply holds_true in Hy.
    apply span_exists in Hhead as (m & Hm & Hfalse & Hall).
    destruct (span_spec _ _ _ _ Hm Hfalse Hall) as [-> _].
    intros (i & Hi)%list_elem_of_lookup.
    apply lookup_take_Some in Hi as [Hi Him].
    exists (Z.of_nat i + 1), (Z.of_nat m + 1).
    split; [lia|]. split; [by apply ray_lookup in Hi|].
    apply ray_lookup in Hm as Hmeq. rewrite <- Hmeq. split; [done|].
    intros j Hj.
    destruct (lookup_lt_is_Some_2 (ray r c d) (Z.to_nat (j - 1))) as [x Hx].
    { apply lookup_lt_Some in Hm. lia. }
    pose proof (Hall (Z.to_nat (j - 1)) x ltac:(lia) Hx) as Hopp.
    apply holds_true in Hopp.
    apply ray_lookup in Hx. rewrite Hx in Hopp.
    by replace (Z.of_nat (Z.to_nat (j - 1)) + 1) with j in Hopp by lia.
  - intros (k & m & Hkm & -> & Hend & Hopp).
    assert (Hsome : ∀ j, 1 ≤ j ≤ m → is_Some (cellAt b (stepFrom r c d j))).
    { intros j Hj. destruct (decide (j = m)) as [->|]; [by eexists|].
      rewrite Hopp by lia. by eexists. }
    pose proof (ray_lookup_step b r c d m Hwf Hin Hd Hsome) as Hray.
    assert (Hspan :
      takeWhile (holds b (opposite player)) (ray r c d)
        = take (Z.to_nat (m - 1)) (ray r c d) ∧
      dropWhile (holds b (opposite player)) (ray r c d)
        = drop (Z.to_nat (m - 1)) (ray r c d)).
    { apply (span_spec _ _ _ (stepFrom r c d m)).
      - apply Hray. lia.
      - unfold holds. rewrite Hend. apply bool_decide_eq_false_2.
        intros [= He]. destruct Hp as [-> | ->]; done.
      - intros j x Hj Hx. apply holds_true.
        pose proof (Hray (Z.of_nat j + 1) ltac:(lia)) as Hj'.
        replace (Z.to_nat (Z.of_nat j + 1 - 1)) with j in Hj' by lia.
        rewrite Hj' in Hx. injection Hx as <-. apply Hopp. lia. }
    destruct Hspan as [-> ->].
    rewrite head_lookup, lookup_drop, Nat.add_0_r.
    rewrite Hray by lia.
    rewrite (proj2 (holds_true _ _ _) Hend).
    apply list_elem_of_lookup. exists (Z.to_nat (k - 1)).
    rewrite lookup_take_lt by lia. apply Hray. lia.
Qed.

Lemma elem_of_flipsOf_flanked b r c player q :
  wf_board b → is_player player →
  q ∈ flipsOf b r c player ↔
  inRange r c = true ∧ cellAt b (mkPos r c) = Some EMPTY ∧
  ∃ d k m, d ∈ DIRECTIONS ∧ 1 ≤ k < m ∧ q = stepFrom r c d k ∧
           cellAt b (stepFrom r c d m) = Some player ∧
           ∀ j, 1 ≤ j < m →
                cellAt b (stepFrom r c d j) = Some (opposite player).
Proof.
  intros Hwf Hp. unfold flipsOf.
  change (onBoard (mkPos r c)) with (inRange r c).
  destruct (inRange r c) eqn:Hin; cbn [andb].
  2:{ split; [by intros ?%elem_of_nil|by intros [? _]]. }
  destruct (holds b EMPTY (mkPos r c)) eqn:Hempty.
  2:{ split; [by intros ?%elem_of_nil|].
      intros (_ & He & _). apply holds_true in He. congruence. }
  apply holds_true in Hempty.
  unfold flippablePieces_spec. change specDirections with DIRECTIONS.
  rewrite elem_of_concat. split.
  - intros (l & Hq & (d & -> & Hd)%list_elem_of_fmap).
    apply flippedInDirection_flanked in Hq as (k & m & Hq); try done.
    repeat split; try done. by exists d, k, m.
  - intros (_ & _ & d & k & m & Hd & Hq).
    exists (flippedInDirection b player r c d). split.
    + apply flippedInDirection_flanked; try done. by exists k, m.
    + by apply list_elem_of_fmap_2.
Qed.

(** X7.  The flanking rule.  For an in-range EMPTY cell [(r, c)], a cell is
    in the list returned by [getFlippablePieces] exactly when, in one of the
    eight directions, it lies [k] steps from [(r, c)] on a line of opponent
    discs that a disc of the player closes at step [m > k]. *)
Theorem flipped_iff_flanked s r c player q :
  wf_board (board s) → is_player player →
  inRange r c = true → cellAt (board s) (mkPos r c) = Some EMPTY →
  ∃ flippable,
    getFlippablePieces r c player s = (Ok flippable, s) ∧
    (q ∈ flippable ↔
     ∃ d k m, d ∈ DIRECTIONS ∧ 1 ≤ k < m ∧ q = stepFrom r c d k ∧
              cellAt (board s) (stepFrom r c d m) = Some player ∧
              ∀ j, 1 ≤ j < m →
                   cellAt (board s) (stepFrom r c d j)
                   = Some (opponentOf player)).
Proof.
  intros Hwf Hp Hin Hempty. pose proof Hin as [Hr _]%inRange_spec.
  exists (flipsOf (board s) r c player).
  split; [by apply getFlippablePieces_wf|].
  rewrite elem_of_flipsOf_flanked by done.
  rewrite (opponentOf_opposite _ Hp). split; [by intros (_ & _ & ?)|done].
Qed.

Lemma flipped_iff_flanked_witness :
  wf_board (board newGameState) ∧ is_player BLACK ∧
  inRange 2 3 = true ∧ cellAt (board newGameState) (mkPos 2 3) = Some EMPTY ∧
  ∃ flippable,
    getFlippablePieces 2 3 BLACK newGameState = (Ok flippable, newGameState) ∧
    (mkPos 3 3 ∈ flippable ↔
     ∃ d k m, d ∈ DIRECTIONS ∧ 1 ≤ k < m ∧ mkPos 3 3 = stepFrom 2 3 d k ∧
              cellAt (board newGameState) (stepFrom 2 3 d m) = Some BLACK ∧
              ∀ j, 1 ≤ j < m →
                   cellAt (board newGameState) (stepFrom 2 3 d j)
                   = Some (opponentOf BLACK)).
Proof.
  split; [apply newGameState_wf|].
  split; [left; reflexivity|].
  split; [reflexivity|]. split; [reflexivity|].
  apply (flipped_iff_flanked newGameState 2 3 BLACK (mkPos 3 3)).
  - apply newGameState_wf.
  - left; reflexivity.
  - reflexivity.
  - reflexivity.
Defined.

(** X8.  The legal moves.  A cell is returned by [getValidMoves(player)]
    exactly when it is an EMPTY cell of the board from which, in some
    direction, one or more opponent discs are followed by a disc of the
    player. *)
Theorem valid_move_iff_flanking s player p :
  wf_board (board s) → is_player player →
  ∃ moves,
    getValidMoves player s = (Ok moves, s) ∧
    (p ∈ moves ↔
     onBoard p = true ∧ cellAt (board s) p = Some EMPTY ∧
     ∃ d m, d ∈ DIRECTIONS ∧ 2 ≤ m ∧
            cellAt (board s) (stepFrom (pos_r p) (pos_c p) d m) = Some player ∧
            ∀ j, 1 ≤ j < m →
                 cellAt (board s) (stepFrom (pos_r p) (pos_c p) d j)
                 = Some (opponentOf player)).
Proof.
  intros Hwf Hp. exists (validMovesOf (board s) player).
  split; [by apply getValidMoves_wf|].
  rewrite elem_of_validMovesOf, (opponentOf_opposite _ Hp).
  destruct p as [r c]. cbn [pos_r pos_c]. split.
  - intros [Hon Hne]. split; [done|].
    destruct (flipsOf (board s) r c player) as [|q l] eqn:Hfl; [done|].
    assert (Hq : q ∈ flipsOf (board s) r c player) by (rewrite Hfl; left).
    apply elem_of_flipsOf_flanked in Hq
      as (_ & Hempty & d & k & m & Hd & Hkm & _ & Hend & Hopp); try done.
    split; [done|]. exists d, m. repeat split; try done. lia.
  - intros (Hon & Hempty & d & m & Hd & Hm & Hend & Hopp). split; [done|].
    assert (Hq : stepFrom r c d 1 ∈ flipsOf (board s) r c player).
    { apply elem_of_flipsOf_flanked; try done.
      repeat split; try done. exists d, 1, m. repeat split; try done; lia. }
    intros He. rewrite He in Hq. by apply elem_of_nil in Hq.
Qed.

Lemma valid_move_iff_flanking_witness :
  wf_board (board newGameState) ∧ is_player BLACK ∧
  ∃ moves,
    getValidMoves BLACK newGameState = (Ok moves, newGameState) ∧
    (mkPos 2 3 ∈ moves ↔
     onBoard (mkPos 2 3) = true ∧
     cellAt (board newGameState) (mkPos 2 3) = Some EMPTY ∧
     ∃ d m, d ∈ DIRECTIONS ∧ 2 ≤ m ∧
            cellAt (board newGameState) (stepFrom 2 3 d m) = Some BLACK ∧
            ∀ j, 1 ≤ j < m →
                 cellAt (board newGameState) (stepFrom 2 3 d j)
                 = Some (opponentOf BLACK)).
Proof.
  split; [apply newGameState_wf|].
  split; [left; reflexivity|].
  apply (valid_move_iff_flanking newGameState BLACK (mkPos 2 3)).
  - apply newGameState_wf.
  - left; reflexivity.
Defined.

(** ** Positions without a move *)

Lemma count_pos v (l : list Cell) : v ∈ l → (0 < count v l)%nat.
Proof.
  induction l as [|x l IH]; [by intros ?%elem_of_nil|].
  rewrite count_cons. intros [->|Hv]%elem_of_cons.
  - rewrite decide_True by done. lia.
  - specialize (IH Hv). lia.
Qed.

Lemma cellAt_countOf b p v : cellAt b p = Some v → (0 < countOf v b)%nat.
Proof.
  unfold cellAt. intros Hv.
  destruct (js_get b (pos_r p)) as [row|] eqn:Hrow; [|done]. simpl in Hv.
  apply js_get_Some in Hrow as [_ Hrow]. apply js_get_Some in Hv as [_ Hv].
  apply count_pos, elem_of_concat. exists row.
  split; apply list_elem_of_lookup; eauto.
Qed.

Lemma flipsOf_colour_absent b r c player v :
  wf_board b → is_player player → countOf v b = 0%nat →
  flipsOf b r c player = [].
Proof.
  intros Hwf Hp Hv.
  destruct (flipsOf b r c player) as [|q l] eqn:Hfl; [done|].
  assert (Hq : q ∈ flipsOf b r c player) by (rewrite Hfl; left).
  apply elem_of_flipsOf_flanked in Hq
    as (_ & Hempty & d & k & m & _ & Hkm & _ & Hend & Hopp); try done.
  specialize (Hopp 1 ltac:(lia)).
  apply cellAt_countOf in Hempty, Hend, Hopp.
  destruct v, Hp as [-> | ->]; simpl in *; lia.
Qed.

(** X9.  When one of the three cell values does not occur on the board (the
    board is full, or one colour has no disc left), [getValidMoves] returns
    the empty list for both players and [renderBoard] announces the end of
    the game without queuing a timer. *)
Theorem no_move_when_a_value_is_absent s v :
  wf_state s → countOf v (board s) = 0%nat →
  getValidMoves BLACK s = (Ok [], s) ∧
  getValidMoves WHITE s = (Ok [], s) ∧
  ∃ s',
    renderBoard s = (Ok tt, s') ∧
    messageText s' = resultMessage (countOf BLACK (board s))
                                   (countOf WHITE (board s)) ∧
    board s' = board s ∧ currentPlayer s' = currentPlayer s ∧
    timers s' = timers s.
Proof.
  intros (Hwf & Hp & Hts) Hv.
  assert (Hnil : ∀ p, is_player p → validMovesOf (board s) p = []).
  { intros p Hpp. apply validMovesOf_nil. intros r c.
    by eapply flipsOf_colour_absent. }
  split; [rewrite getValidMoves_wf by (done || by left);
          by rewrite Hnil by (by left)|].
  split; [rewrite getValidMoves_wf by (done || by right);
          by rewrite Hnil by (by right)|].
  exists (rendered s). split; [by apply renderBoard_wf|].
  unfold rendered.
  by rewrite !decide_True by auto using opponentOf_is_player.
Qed.

Lemma no_move_when_a_value_is_absent_witness :
  wf_state finishedPosition ∧ countOf WHITE (board finishedPosition) = 0%nat ∧
  getValidMoves BLACK finishedPosition = (Ok [], finishedPosition) ∧
  getValidMoves WHITE finishedPosition = (Ok [], finishedPosition) ∧
  ∃ s',
    renderBoard finishedPosition = (Ok tt, s') ∧
    messageText s' = resultMessage (countOf BLACK (board finishedPosition))
                                   (countOf WHITE (board finishedPosition)) ∧
    board s' = board finishedPosition ∧
    currentPlayer s' = currentPlayer finishedPosition ∧
    timers s' = timers finishedPosition.
Proof.
  split; [apply finishedPosition_wf|]. split; [reflexivity|].
  apply (no_move_when_a_value_is_absent finishedPosition WHITE).
  - apply finishedPosition_wf.
  - reflexivity.
Defined.

(** ** Sequences of events *)

Lemma dispatch_board s e :
  wf_state s →
  (board (dispatch s e) = board s ∨
   (board (dispatch s e) ≠ board s ∧
    countOf EMPTY (board (dispatch s e)) + 1 = countOf EMPTY (board s))%nat).
Proof.
  intros (Hwf & Hp & Hts). destruct e as [r c|]; unfold dispatch, handler.
  - rewrite handleMove_snd by done.
    destruct (decide (flipsOf _ _ _ _ = [])) as [He|Hne]; [by left|].
    right. rewrite rendered_board. cbn [board withPlayer withBoard].
    split; [by apply boardAfterMove_changed|].
    by destruct (boardAfterMove_counts _ r c _ Hwf Hp Hne) as (_ & _ & ?).
  - left. rewrite fireTimer_wf by done.
    destruct (timers s); [done|]. cbn [snd]. by rewrite rendered_board.
Qed.

(** X10.  Every accepted move fills one EMPTY cell and nothing ever empties a
    cell: along any sequence of clicks and timer expiries the number of
    accepted moves is the number of EMPTY cells that disappeared, so a game
    started by [initializeGame] has at most 60 accepted moves. *)
Theorem accepted_moves_fill_empty_cells s es :
  wf_state s →
  (acceptedMoves s es + countOf EMPTY (board (run s es)))%nat
  = countOf EMPTY (board s) ∧
  (acceptedMoves s es ≤ countOf EMPTY (board s))%nat.
Proof.
  intros Hs.
  enough (acceptedMoves s es + countOf EMPTY (board (run s es))
          = countOf EMPTY (board s))%nat by (split; [done|lia]).
  revert s Hs. induction es as [|e es IH]; intros s Hs; [done|].
  cbn [acceptedMoves run foldl].
  pose proof (IH _ (dispatch_wf s e Hs)) as IH'. unfold run in IH'.
  destruct (dispatch_board s e Hs) as [Heq|[Hne Hcount]].
  - rewrite decide_True by done. rewrite Heq in IH'. lia.
  - rewrite decide_False by done. lia.
Qed.

Lemma accepted_moves_fill_empty_cells_witness :
  wf_state newGameState ∧
  countOf EMPTY (board newGameState) = 60%nat ∧
  acceptedMoves newGameState [Click 2 3; Click 0 0; Click 2 2] = 2%nat ∧
  (acceptedMoves newGameState [Click 2 3; Click 0 0; Click 2 2]
   + countOf EMPTY (board (run newGameState [Click 2 3; Click 0 0; Click 2 2])))%nat
  = countOf EMPTY (board newGameState) ∧
  (acceptedMoves newGameState [Click 2 3; Click 0 0; Click 2 2]
   ≤ countOf EMPTY (board newGameState))%nat.
Proof.
  split; [apply newGameState_wf|].
  split; [reflexivity|]. split; [reflexivity|].
  apply (accepted_moves_fill_empty_cells newGameState
           [Click 2 3; Click 0 0; Click 2 2]).
  apply newGameState_wf.
Defined.

(** X11.  Whatever is clicked, inside or outside the board, and whenever a
    timer expires, the board stays an 8 by 8 grid, the current player stays
    BLACK or WHITE and so do the players captured by pending timers. *)
Theorem events_keep_the_state_well_formed s es :
  wf_state s → wf_state (run s es).
Proof. intros Hs. by apply run_wf. Qed.

Lemma events_keep_the_state_well_formed_witness :
  wf_state newGameState ∧
  wf_state (run newGameState [Click 2 3; Click 9 9; TimerExpired; Click 2 2]).
Proof.
  split; [apply newGameState_wf|].
  apply (events_keep_the_state_well_formed newGameState
           [Click 2 3; Click 9 9; TimerExpired; Click 2 2]).
  apply newGameState_wf.
Defined.

(** ** What is on display *)

Lemma rendered_messageText_ext s t :
  board s = board t → currentPlayer s = currentPlayer t →
  messageText (rendered s) = messageText (rendered t).
Proof.
  intros Hb Hp. unfold rendered. rewrite Hb, Hp.
  by repeat case_decide.
Qed.

Lemma displayInSync_wf s :
  wf_state s →
  displayInSync s ↔
  scoreText s = scoreOf (board s) ∧ messageText s = messageText (rendered s).
Proof.
  intros (Hwf & Hp & _). unfold displayInSync. split.
  - intros (s' & Hr & Hsc & Hm). rewrite renderBoard_wf in Hr by done.
    injection Hr as <-. by rewrite rendered_scoreText in Hsc.
  - intros [Hsc Hm]. exists (rendered s).
    split; [by apply renderBoard_wf|]. by rewrite rendered_scoreText.
Qed.

Lemma rendered_displayInSync s : wf_state s → displayInSync (rendered s).
Proof.
  intros Hs. apply displayInSync_wf; [by apply rendered_wf|].
  rewrite rendered_scoreText, rendered_board. split; [done|].
  apply rendered_messageText_ext;
    by rewrite ?rendered_board, ?rendered_currentPlayer.
Qed.

Lemma dispatch_displayInSync s e :
  wf_state s → displayInSync s → displayInSync (dispatch s e).
Proof.
  intros Hs Hsync. pose proof Hs as (Hwf & Hp & Hts).
  destruct e as [r c|]; unfold dispatch, handler.
  - rewrite handleMove_snd by done. case_decide; [done|].
    apply rendered_displayInSync.
    split; [|split]; simpl; auto with othello.
  - rewrite fireTimer_wf by done.
    destruct (timers s) as [|p rest] eqn:Ht; [done|]. cbn [snd].
    apply Forall_cons in Hts as [Hp' Hrest].
    by apply rendered_displayInSync.
Qed.

(** X12.  Once the score and the message on display are up to date (as they
    are after [initializeGame]), they stay up to date after every click and
    every timer expiry: no event leaves a stale score or message. *)
Theorem display_stays_in_sync s es :
  wf_state s → displayInSync s → displayInSync (run s es).
Proof.
  revert s. induction es as [|e es IH]; intros s Hs Hsync; [done|].
  simpl. apply IH; [by apply dispatch_wf|by apply dispatch_displayInSync].
Qed.

Lemma display_stays_in_sync_witness :
  wf_state newGameState ∧ displayInSync newGameState ∧
  displayInSync (run newGameState [Click 2 3; Click 2 2; Click 0 0]).
Proof.
  assert (Hsync : displayInSync newGameState).
  { exists newGameState. repeat split; reflexivity. }
  split; [apply newGameState_wf|]. split; [exact Hsync|].
  apply (display_stays_in_sync newGameState [Click 2 3; Click 2 2; Click 0 0]).
  - apply newGameState_wf.
  - exact Hsync.
Defined.

(** ** Timers *)

(** X13.  During a game at most one timer is pending, and only while the
    current player has no valid move; when it expires the other player
    becomes the current player, the board is untouched, the message
    announces that player's turn and no timer is left. *)
Theorem one_pass_timer s es :
  game_inv s →
  let s1 := run s es in
  (length (timers s1) ≤ 1)%nat ∧
  (timers s1 ≠ [] →
   getValidMoves (currentPlayer s1) s1 = (Ok [], s1) ∧
   ∃ s2,
     fireTimer s1 = (Ok tt, s2) ∧ board s2 = board s1 ∧
     currentPlayer s2 = opponentOf (currentPlayer s1) ∧
     messageText s2 = MsgTurn (colorName (currentPlayer s2)) ∧
     timers s2 = []).
Proof.
  intros Hinv. cbn zeta.
  pose proof (game_inv_run s es Hinv) as [Hs1 Ht].
  pose proof Hs1 as (Hwf & Hp & Hts).
  destruct Ht as [Ht|(Ht & He & Hne)]; rewrite Ht;
    [split; [simpl; lia|done]|].
  split; [simpl; lia|]. intros _.
  split; [rewrite getValidMoves_wf by done; by rewrite He|].
  rewrite fireTimer_wf, Ht by done.
  eexists. split; [done|].
  unfold rendered. cbn [board currentPlayer timers].
  by rewrite decide_False by done.
Qed.

Lemma one_pass_timer_witness :
  game_inv passPosition ∧
  timers (run passPosition [Click 0 0]) = [BLACK] ∧
  let s1 := run passPosition [Click 0 0] in
  (length (timers s1) ≤ 1)%nat ∧
  (timers s1 ≠ [] →
   getValidMoves (currentPlayer s1) s1 = (Ok [], s1) ∧
   ∃ s2,
     fireTimer s1 = (Ok tt, s2) ∧ board s2 = board s1 ∧
     currentPlayer s2 = opponentOf (currentPlayer s1) ∧
     messageText s2 = MsgTurn (colorName (currentPlayer s2)) ∧
     timers s2 = []).
Proof.
  assert (Hinv : game_inv passPosition).
  { apply game_inv_no_timer; [apply passPosition_wf|reflexivity]. }
  split; [exact Hinv|]. split; [reflexivity|].
  apply (one_pass_timer passPosition [Click 0 0]). exact Hinv.
Defined.

(** X14.  [initializeGame] does not cancel a pending timer.  When the reset
    button is pressed while a pass notice is shown, the new game starts with
    BLACK to move and the old timer still queued; when that timer expires it
    gives the turn to the player it captured, on the fresh board. *)
Theorem reset_keeps_pending_timer s p rest :
  timers s = p :: rest → is_player p →
  ∃ s1 s2,
    initializeGame s = (Ok tt, s1) ∧
    board s1 = board newGameState ∧ currentPlayer s1 = BLACK ∧
    timers s1 = p :: rest ∧
    fireTimer s1 = (Ok tt, s2) ∧
    board s2 = board newGameState ∧ currentPlayer s2 = p ∧
    messageText s2 = MsgTurn (colorName p) ∧ timers s2 = rest.
Proof.
  intros Ht Hp. destruct s as [b p0 m sc ts]. simpl in Ht. subst ts.
  destruct Hp as [-> | ->];
    (eexists; eexists; split; [vm_compute; reflexivity|];
     repeat (split; [vm_compute; reflexivity|]); vm_compute; reflexivity).
Qed.

Lemma reset_keeps_pending_timer_witness :
  timers (run passPositionWhite [Click 0 0]) = [WHITE] ∧ is_player WHITE ∧
  ∃ s1 s2,
    initializeGame (run passPositionWhite [Click 0 0]) = (Ok tt, s1) ∧
    board s1 = board newGameState ∧ currentPlayer s1 = BLACK ∧
    timers s1 = [WHITE] ∧
    fireTimer s1 = (Ok tt, s2) ∧
    board s2 = board newGameState ∧ currentPlayer s2 = WHITE ∧
    messageText s2 = MsgTurn (colorName WHITE) ∧ timers s2 = [].
Proof.
  split; [reflexivity|]. split; [right; reflexivity|].
  apply (reset_keeps_pending_timer (run passPositionWhite [Click 0 0]) WHITE []).
  - reflexivity.
  - right; reflexivity.
Defined.

(** ** The squares of [renderBoard] *)

Lemma isValidMove_spec validMoves r c :
  isValidMove validMoves r c = true ↔ mkPos r c ∈ validMoves.
Proof.
  unfold isValidMove.
  induction validMoves as [|[r' c'] l IH]; simpl.
  - split; [done|by intros ?%elem_of_nil].
  - rewrite orb_true_iff, IH, elem_of_cons, andb_true_iff, !Z.eqb_eq.
    split; (intros [H|H]; [left|by right]).
    + destruct H as [-> ->]. done.
    + by injection H as -> ->.
Qed.

Lemma ReadOnly_buildSquares validMoves : ReadOnly (buildSquares validMoves).
Proof.
  unfold buildSquares, forUpTo.
  apply ReadOnly_forEach. intros r acc.
  apply ReadOnly_forEach. intros c acc'.
  apply ReadOnly_bind; [apply ReadOnly_readCell|]. intros cell.
  apply ReadOnly_bind; [|intros; apply ReadOnly_ret].
  case_decide; [|apply ReadOnly_ret].
  apply ReadOnly_bind; [apply ReadOnly_readCell|]. intros; apply ReadOnly_ret.
Qed.

Lemma buildSquares_wf s validMoves :
  wf_board (board s) →
  buildSquares validMoves s = (Ok (squaresOf (board s) validMoves), s).
Proof.
  intros Hwf. unfold buildSquares, forUpTo, squaresOf.
  rewrite (forEach_pure _ _ (λ acc r, acc ++
    concat ((λ c, [mkSquare r c (isValidMove validMoves r c)
                            (discOf (cellAt (board s) (mkPos r c)))])
            <$> seqZ 0 BOARD_SIZE))).
  - by rewrite foldl_app_concat.
  - intros r acc Hr%elem_of_seqZ_BOARD_SIZE.
    rewrite (forEach_pure _ _ (λ acc c, acc ++
      [mkSquare r c (isValidMove validMoves r c)
                (discOf (cellAt (board s) (mkPos r c)))])).
    + by rewrite foldl_app_concat.
    + intros c acc' _. cbn zeta.
      rewrite (bind_ok _ _ _ _ _ (readCell_wf s r c Hwf Hr)).
      unfold discOf. case_decide.
      * erewrite bind_ok; [done|].
        by rewrite (bind_ok _ _ _ _ _ (readCell_wf s r c Hwf Hr)).
      * by erewrite bind_ok.
Qed.

Lemma fmap_concat_fmap {A B C} (h : B → C) (f : A → list B)
    (g : A → list C) (l : list A) :
  (∀ x, h <$> f x = g x) →
  h <$> concat (f <$> l) = concat (g <$> l).
Proof.
  intros Hfg. induction l as [|x l IH]; [done|].
  rewrite !fmap_cons, !concat_cons, fmap_app, IH, Hfg. done.
Qed.

Lemma squaresOf_positions b validMoves :
  squarePos <$> squaresOf b validMoves = allCells.
Proof.
  unfold squaresOf, allCells.
  apply fmap_concat_fmap. intros r.
  apply fmap_concat_fmap. by intros c.
Qed.

Lemma elem_of_squaresOf b validMoves q :
  q ∈ squaresOf b validMoves →
  inRange (square_row q) (square_col q) = true ∧
  square_clickable q = isValidMove validMoves (square_row q) (square_col q) ∧
  square_disc q = discOf (cellAt b (squarePos q)).
Proof.
  unfold squaresOf.
  intros (l & Hq & (r & -> & Hr%elem_of_seqZ_BOARD_SIZE)%list_elem_of_fmap)
    %elem_of_concat.
  apply elem_of_concat in Hq
    as (l & Hq & (c & -> & Hc%elem_of_seqZ_BOARD_SIZE)%list_elem_of_fmap).
  apply list_elem_of_singleton in Hq as ->. simpl.
  split; [by apply inRange_spec|done].
Qed.

(** X15.  On a well-formed state the loop of [renderBoard] builds 64 squares
    in row-major order.  A square gets the click listener exactly when a
    click on it places a disc, and it shows a black disc on a BLACK cell, a
    white disc on a WHITE cell and no disc on an EMPTY cell; the loop changes
    nothing in the state. *)
Theorem renderBoard_squares s :
  wf_state s →
  ∃ moves squares,
    getValidMoves (currentPlayer s) s = (Ok moves, s) ∧
    buildSquares moves s = (Ok squares, s) ∧ drawSquares s = (Ok tt, s) ∧
    squarePos <$> squares = allCells ∧ length squares = 64%nat ∧
    ∀ q, q ∈ squares →
      (square_clickable q = true ↔
       board (dispatch s (Click (square_row q) (square_col q))) ≠ board s) ∧
      square_disc q =
        match cellAt (board s) (squarePos q) with
        | Some BLACK => Some DiscBlack
        | Some WHITE => Some DiscWhite
        | _ => None
        end.
Proof.
  intros Hs. pose proof Hs as (Hwf & Hp & Hts).
  exists (validMovesOf (board s) (currentPlayer s)),
         (squaresOf (board s) (validMovesOf (board s) (currentPlayer s))).
  split; [by apply getValidMoves_wf|].
  split; [by apply buildSquares_wf|].
  split; [by apply drawSquares_wf|].
  split; [apply squaresOf_positions|].
  split.
  { rewrite <- (length_fmap squarePos), squaresOf_positions. done. }
  intros q (Hin & Hclick & Hdisc)%elem_of_squaresOf. split.
  - rewrite Hclick, isValidMove_spec.
    unfold dispatch, handler. rewrite handleMove_snd by done.
    rewrite elem_of_validMovesOf. cbn [pos_r pos_c].
    destruct (decide (flipsOf _ _ _ _ = [])) as [He|Hne].
    + split; [by intros [_ ?]|done].
    + rewrite rendered_board. cbn [board withPlayer withBoard]. split.
      * intros _. by apply boardAfterMove_changed.
      * intros _. by split.
  - rewrite Hdisc.
    destruct (wf_board_cell _ _ _ Hwf Hin) as [v Hv].
    unfold squarePos. rewrite Hv. unfold discOf.
    destruct v; repeat case_decide; done.
Qed.

Lemma renderBoard_squares_witness :
  wf_state newGameState ∧
  ∃ moves squares,
    getValidMoves (currentPlayer newGameState) newGameState =
      (Ok moves, newGameState) ∧
    buildSquares moves newGameState = (Ok squares, newGameState) ∧
    drawSquares newGameState = (Ok tt, newGameState) ∧
    squarePos <$> squares = allCells ∧ length squares = 64%nat ∧
    ∀ q, q ∈ squares →
      (square_clickable q = true ↔
       board (dispatch newGameState (Click (square_row q) (square_col q)))
       ≠ board newGameState) ∧
      square_disc q =
        match cellAt (board newGameState) (squarePos q) with
        | Some BLACK => Some DiscBlack
        | Some WHITE => Some DiscWhite
        | _ => None
        end.
Proof.
  split; [apply newGameState_wf|].
  apply (renderBoard_squares newGameState). apply newGameState_wf.
Defined.

(** X16.  On a well-formed state [renderBoard] never raises, leaves the
    board and the current player untouched, refreshes the score, and reports
    exactly one of three things: the turn of
    the current player when that player has a valid move; a pass, with one
    more timer queued for the other player, when only the other player has
    one; the end of the game when neither has. *)
Theorem renderBoard_status s :
  wf_state s →
  let P := currentPlayer s in
  let O := opponentOf P in
  ∃ movesP movesO s',
    getValidMoves P s = (Ok movesP, s) ∧
    getValidMoves O s = (Ok movesO, s) ∧
    renderBoard s = (Ok tt, s') ∧
    board s' = board s ∧ currentPlayer s' = P ∧
    scoreText s' = (countOf BLACK (board s), countOf WHITE (board s)) ∧
    (movesP ≠ [] →
       messageText s' = MsgTurn (colorName P) ∧ timers s' = timers s) ∧
    (movesP = [] → movesO ≠ [] →
       messageText s' = MsgPass (colorName P) (colorName O) ∧
       timers s' = timers s ++ [O]) ∧
    (movesP = [] → movesO = [] →
       messageText s' = resultMessage (countOf BLACK (board s))
                                      (countOf WHITE (board s)) ∧
       timers s' = timers s).
Proof.
  intros (Hwf & Hp & Hts). cbn zeta.
  exists (validMovesOf (board s) (currentPlayer s)),
         (validMovesOf (board s) (opponentOf (currentPlayer s))),
         (rendered s).
  split; [by apply getValidMoves_wf|].
  split; [apply getValidMoves_wf; [done|apply opponentOf_is_player]|].
  split; [by apply renderBoard_wf|].
  split; [apply rendered_board|].
  split; [apply rendered_currentPlayer|].
  split; [apply rendered_scoreText|].
  unfold rendered.
  repeat split; intros; repeat case_decide; done.
Qed.

Lemma renderBoard_status_witness :
  wf_state finishedPosition ∧
  ∃ movesP movesO s',
    getValidMoves WHITE finishedPosition = (Ok movesP, finishedPosition) ∧
    getValidMoves BLACK finishedPosition = (Ok movesO, finishedPosition) ∧
    renderBoard finishedPosition = (Ok tt, s') ∧
    board s' = board finishedPosition ∧ currentPlayer s' = WHITE ∧
    scoreText s' = (countOf BLACK (board finishedPosition),
                    countOf WHITE (board finishedPosition)) ∧
    (movesP ≠ [] →
       messageText s' = MsgTurn (colorName WHITE) ∧
       timers s' = timers finishedPosition) ∧
    (movesP = [] → movesO ≠ [] →
       messageText s' = MsgPass (colorName WHITE) (colorName BLACK) ∧
       timers s' = timers finishedPosition ++ [BLACK]) ∧
    (movesP = [] → movesO = [] →
       messageText s' = resultMessage (countOf BLACK (board finishedPosition))
                                      (countOf WHITE (board finishedPosition)) ∧
       timers s' = timers finishedPosition).
Proof.
  split; [apply finishedPosition_wf|].
  apply (renderBoard_status finishedPosition). apply finishedPosition_wf.
Defined.

(** ** Termination of the walks *)

(** X17.  On every board, well-formed or not, and for every cell and player,
    each [while] loop of [getFlippablePieces] is left within [BOARD_SIZE]
    iterations: neither [getFlippablePieces] nor [getValidMoves] ever
    exhausts the iteration bound of the model. *)
Theorem walks_terminate s r c player :
  fst (getFlippablePieces r c player s) ≠ OutOfFuel ∧
  fst (getValidMoves player s) ≠ OutOfFuel.
Proof.
  split; [apply getFlippablePieces_terminates|apply getValidMoves_terminates].
Qed.

(** ** The two colours are treated alike *)

Lemma js_get_fmap {A B} (f : A → B) (l : list A) i :
  js_get (f <$> l) i = f <$> js_get l i.
Proof. unfold js_get. case_decide; [apply list_lookup_fmap|done]. Qed.

Lemma cellAt_swapColours b p :
  cellAt (swapColours b) p = opposite <$> cellAt b p.
Proof.
  unfold cellAt, swapColours. rewrite js_get_fmap.
  destruct (js_get b (pos_r p)) as [row|]; [|done]. simpl.
  apply js_get_fmap.
Qed.

Lemma opposite_involutive v : opposite (opposite v) = v.
Proof. by destruct v. Qed.

Lemma holds_swapColours b v p :
  holds (swapColours b) (opposite v) p = holds b v p.
Proof.
  unfold holds. rewrite cellAt_swapColours. apply bool_decide_ext.
  destruct (cellAt b p) as [x|]; simpl; [|done]. split.
  - intros [= He]. f_equal.
    by rewrite <- (opposite_involutive x), He, opposite_involutive.
  - by intros [= ->].
Qed.

Lemma takeWhile_ext {A} (P Q : A → bool) (l : list A) :
  (∀ x, P x = Q x) → takeWhile P l = takeWhile Q l.
Proof.
  intros HPQ. induction l as [|x l IH]; [done|].
  simpl. by rewrite HPQ, IH.
Qed.

Lemma dropWhile_ext {A} (P Q : A → bool) (l : list A) :
  (∀ x, P x = Q x) → dropWhile P l = dropWhile Q l.
Proof.
  intros HPQ. induction l as [|x l IH]; [done|].
  simpl. by rewrite HPQ, IH.
Qed.

Lemma flippedInDirection_swapColours b player r c d :
  flippedInDirection (swapColours b) (opposite player) r c d =
  flippedInDirection b player r c d.
Proof.
  unfold flippedInDirection, runEnd, opponentRun.
  rewrite (takeWhile_ext _ (holds b (opposite player)))
    by apply holds_swapColours.
  rewrite (dropWhile_ext _ (holds b (opposite player)))
    by apply holds_swapColours.
  destruct (head _) as [q|]; [|done]. by rewrite holds_swapColours.
Qed.

Lemma flipsOf_swapColours b r c player :
  flipsOf (swapColours b) r c (opposite player) = flipsOf b r c player.
Proof.
  unfold flipsOf. rewrite (holds_swapColours b EMPTY).
  destruct (_ && _); [|done]. unfold flippablePieces_spec. f_equal.
  apply list_fmap_ext. intros _ d _. apply flippedInDirection_swapColours.
Qed.

Lemma validMovesOf_swapColours b player :
  validMovesOf (swapColours b) (opposite player) = validMovesOf b player.
Proof.
  unfold validMovesOf. f_equal.
  apply list_fmap_ext. intros _ r _. f_equal.
  apply list_fmap_ext. intros _ c _. by rewrite flipsOf_swapColours.
Qed.

Lemma swapColours_wf b : wf_board b → wf_board (swapColours b).
Proof.
  intros [Hlen Hrows]. unfold swapColours. split; [by rewrite length_fmap|].
  apply Forall_fmap. eapply Forall_impl; [exact Hrows|].
  intros row Hrow. simpl. by rewrite length_fmap.
Qed.

(** X18.  The rules treat the two colours alike: on the board with BLACK and
    WHITE exchanged, the other player gets the same flip list at every cell
    and the same list of valid moves. *)
Theorem colours_are_treated_alike s t player r c :
  wf_board (board s) → is_player player →
  board t = swapColours (board s) → 0 ≤ r < BOARD_SIZE →
  ∃ flippable moves,
    getFlippablePieces r c player s = (Ok flippable, s) ∧
    getFlippablePieces r c (opponentOf player) t = (Ok flippable, t) ∧
    getValidMoves player s = (Ok moves, s) ∧
    getValidMoves (opponentOf player) t = (Ok moves, t).
Proof.
  intros Hwf Hp Ht Hr.
  assert (Hwft : wf_board (board t)) by (rewrite Ht; by apply swapColours_wf).
  exists (flipsOf (board s) r c player), (validMovesOf (board s) player).
  rewrite !getFlippablePieces_wf, !getValidMoves_wf
    by auto using opponentOf_is_player.
  rewrite (opponentOf_opposite _ Hp), Ht.
  by rewrite flipsOf_swapColours, validMovesOf_swapColours.
Qed.

Lemma colours_are_treated_alike_witness :
  wf_board (board passPosition) ∧ is_player BLACK ∧
  board passPositionWhite = swapColours (board passPosition) ∧
  0 ≤ 0 < BOARD_SIZE ∧
  ∃ flippable moves,
    getFlippablePieces 0 0 BLACK passPosition = (Ok flippable, passPosition) ∧
    getFlippablePieces 0 0 (opponentOf BLACK) passPositionWhite =
      (Ok flippable, passPositionWhite) ∧
    getValidMoves BLACK passPosition = (Ok moves, passPosition) ∧
    getValidMoves (opponentOf BLACK) passPositionWhite =
      (Ok moves, passPositionWhite).
Proof.
  split; [apply passPosition_wf|].
  split; [left; reflexivity|]. split; [reflexivity|].
  split; [unfold BOARD_SIZE; lia|].
  apply (colours_are_treated_alike passPosition passPositionWhite BLACK 0 0).
  - apply passPosition_wf.
  - left; reflexivity.
  - reflexivity.
  - unfold BOARD_SIZE; lia.
Defined.
